(** * Leader lock and codebase locks of [packages/core/src/lock/index.ts]

    A shallow embedding of the lock module: the leader slot
    ([isLeader], [lockInterval]), the map of codebase locks held by the
    process ([heldCodebaseLocks]) and the functions that act on them.

    The module talks to three collaborators that are not part of it:
    Node's [path]/[os]/[fs] modules, Node's timers, and the
    [proper-lockfile] package.  The digest is modelled concretely
    (module [MD5]); the path functions, the file system and
    [proper-lockfile] are the fields of a [Platform], and the theorems
    hold for every platform. *)

From Stdlib Require Import ZArith String Ascii List Lia.
From stdpp Require Import gmap strings list.

Local Open Scope string_scope.
Local Open Scope list_scope.

(** ** [crypto.createHash('md5').update(s).digest('hex')]

    RFC 1321 on the bytes of the string.  A JavaScript string is hashed
    through its UTF-8 encoding; a Rocq [string] stands for these bytes. *)
Module MD5.
Local Open Scope Z_scope.

Definition add32 (a b : Z) : Z := (a + b) mod 2 ^ 32.

Definition rotl32 (x c : Z) : Z :=
  Z.lor (Z.shiftl x c mod 2 ^ 32) (Z.shiftr x (32 - c)).

Definition not32 (x : Z) : Z := Z.lxor x 0xffffffff.

(** Per-round shift amounts. *)
Definition shifts : list Z :=
  [7; 12; 17; 22; 7; 12; 17; 22; 7; 12; 17; 22; 7; 12; 17; 22;
   5; 9; 14; 20; 5; 9; 14; 20; 5; 9; 14; 20; 5; 9; 14; 20;
   4; 11; 16; 23; 4; 11; 16; 23; 4; 11; 16; 23; 4; 11; 16; 23;
   6; 10; 15; 21; 6; 10; 15; 21; 6; 10; 15; 21; 6; 10; 15; 21].

(** [floor (2^32 * abs (sin (i + 1)))] for [i] from 0 to 63. *)
Definition sines : list Z :=
  [0xd76aa478; 0xe8c7b756; 0x242070db; 0xc1bdceee;
   0xf57c0faf; 0x4787c62a; 0xa8304613; 0xfd469501;
   0x698098d8; 0x8b44f7af; 0xffff5bb1; 0x895cd7be;
   0x6b901122; 0xfd987193; 0xa679438e; 0x49b40821;
   0xf61e2562; 0xc040b340; 0x265e5a51; 0xe9b6c7aa;
   0xd62f105d; 0x02441453; 0xd8a1e681; 0xe7d3fbc8;
   0x21e1cde6; 0xc33707d6; 0xf4d50d87; 0x455a14ed;
   0xa9e3e905; 0xfcefa3f8; 0x676f02d9; 0x8d2a4c8a;
   0xfffa3942; 0x8771f681; 0x6d9d6122; 0xfde5380c;
   0xa4beea44; 0x4bdecfa9; 0xf6bb4b60; 0xbebfbc70;
   0x289b7ec6; 0xeaa127fa; 0xd4ef3085; 0x04881d05;
   0xd9d4d039; 0xe6db99e5; 0x1fa27cf8; 0xc4ac5665;
   0xf4292244; 0x432aff97; 0xab9423a7; 0xfc93a039;
   0x655b59c3; 0x8f0ccc92; 0xffeff47d; 0x85845dd1;
   0x6fa87e4f; 0xfe2ce6e0; 0xa3014314; 0x4e0811a1;
   0xf7537e82; 0xbd3af235; 0x2ad7d2bb; 0xeb86d391].

Definition zth (l : list Z) (i : Z) : Z := nth (Z.to_nat i) l 0.

Record regs := Regs { rA : Z; rB : Z; rC : Z; rD : Z }.

Definition init_regs : regs :=
  Regs 0x67452301 0xefcdab89 0x98badcfe 0x10325476.

(** One of the 64 operations on the sixteen words [m] of a block. *)
Definition round (m : list Z) (r : regs) (i : Z) : regs :=
  let '(Regs a b c d) := r in
  let '(f, g) :=
    if i <? 16 then (Z.lor (Z.land b c) (Z.land (not32 b) d), i)
    else if i <? 32 then
      (Z.lor (Z.land d b) (Z.land (not32 d) c), (5 * i + 1) mod 16)
    else if i <? 48 then (Z.lxor (Z.lxor b c) d, (3 * i + 5) mod 16)
    else (Z.lxor c (Z.lor b (not32 d)), (7 * i) mod 16) in
  let f' := add32 (add32 (add32 f a) (zth sines i)) (zth m g) in
  Regs d (add32 b (rotl32 f' (zth shifts i))) b c.

Definition word_of_bytes (bs : list Z) : Z :=
  zth bs 0 + 2 ^ 8 * zth bs 1 + 2 ^ 16 * zth bs 2 + 2 ^ 24 * zth bs 3.

Fixpoint words (n : nat) (bs : list Z) : list Z :=
  match n with
  | O => []
  | S n' => word_of_bytes (firstn 4 bs) :: words n' (skipn 4 bs)
  end.

Definition block (r : regs) (bs : list Z) : regs :=
  let m := words 16 bs in
  let r' := fold_left (round m) (map Z.of_nat (seq 0 64)) r in
  Regs (add32 (rA r) (rA r')) (add32 (rB r) (rB r'))
       (add32 (rC r) (rC r')) (add32 (rD r) (rD r')).

Fixpoint blocks (n : nat) (r : regs) (bs : list Z) : regs :=
  match n with
  | O => r
  | S n' => blocks n' (block r (firstn 64 bs)) (skipn 64 bs)
  end.

Definition le_bytes (n : nat) (x : Z) : list Z :=
  map (fun i => Z.shiftr x (8 * Z.of_nat i) mod 2 ^ 8) (seq 0 n).

(** Message, a [0x80] byte, zeros up to 56 modulo 64, the bit length on
    eight little-endian bytes. *)
Definition pad (bs : list Z) : list Z :=
  let len := Z.of_nat (length bs) in
  let zeros := (55 - len) mod 64 in
  bs ++ [0x80] ++ repeat 0 (Z.to_nat zeros)
     ++ le_bytes 8 ((8 * len) mod 2 ^ 64).

Definition digest_bytes (bs : list Z) : list Z :=
  let p := pad bs in
  let r := blocks (length p / 64) init_regs p in
  le_bytes 4 (rA r) ++ le_bytes 4 (rB r)
    ++ le_bytes 4 (rC r) ++ le_bytes 4 (rD r).

Definition hex_digit (n : Z) : ascii :=
  match n with
  | 0 => "0" | 1 => "1" | 2 => "2" | 3 => "3" | 4 => "4" | 5 => "5"
  | 6 => "6" | 7 => "7" | 8 => "8" | 9 => "9" | 10 => "a" | 11 => "b"
  | 12 => "c" | 13 => "d" | 14 => "e" | _ => "f"
  end%char.

Fixpoint hex (bs : list Z) : string :=
  match bs with
  | [] => EmptyString
  | b :: bs' =>
      String (hex_digit (b / 16 mod 16)) (String (hex_digit (b mod 16)) (hex bs'))
  end.

Definition bytes_of_string (s : string) : list Z :=
  map (fun c => Z.of_N (N_of_ascii c)) (list_ascii_of_string s).

Definition md5_hex (s : string) : string := hex (digest_bytes (bytes_of_string s)).

(** The characters of a lower-case hexadecimal numeral. *)
Definition is_hex_digit (c : ascii) : bool :=
  let n := N_of_ascii c in
  ((48 <=? n) && (n <=? 57) || (97 <=? n) && (n <=? 102))%N.

Fixpoint all_hex (s : string) : bool :=
  match s with
  | EmptyString => true
  | String c s' => is_hex_digit c && all_hex s'
  end.

End MD5.

(** ** Node's [path] module on POSIX

    [path.resolve] with one argument and [path.join] with two, under a
    working directory [cwd]: the path functions of the platform the
    examples run on. *)
Module Posix.

(** The segments of a path between its [/] characters; [cur] is the
    segment being read. *)
Fixpoint split_from (cur : string) (s : string) : list string :=
  match s with
  | EmptyString => [cur]
  | String c s' =>
      if Ascii.eqb c "/" then cur :: split_from "" s'
      else split_from (cur +:+ String c "") s'
  end.

Definition split (s : string) : list string := split_from "" s.

(** One segment against the segments kept so far (last one first):
    empty and [.] segments are dropped, [..] removes the last kept
    segment, or is kept itself when [allowAboveRoot] and there is nothing
    to remove. *)
Definition push (allowAboveRoot : bool) (kept : list string) (seg : string)
  : list string :=
  if String.eqb seg "" || String.eqb seg "." then kept
  else if String.eqb seg ".." then
    match kept with
    | top :: rest =>
        if String.eqb top ".." then
          if allowAboveRoot then seg :: kept else kept
        else rest
    | [] => if allowAboveRoot then [seg] else []
    end
  else seg :: kept.

Fixpoint unsplit (segs : list string) : string :=
  match segs with
  | [] => ""
  | [s] => s
  | s :: rest => s +:+ "/" +:+ unsplit rest
  end.

Definition normalizeString (p : string) (allowAboveRoot : bool) : string :=
  unsplit (rev (fold_left (push allowAboveRoot) (split p) [])).

Definition starts_with_slash (p : string) : bool :=
  match p with String c _ => Ascii.eqb c "/" | EmptyString => false end.

Fixpoint ends_with_slash (p : string) : bool :=
  match p with
  | EmptyString => false
  | String c EmptyString => Ascii.eqb c "/"
  | String _ p' => ends_with_slash p'
  end.

Definition is_empty (p : string) : bool :=
  match p with EmptyString => true | _ => false end.

Definition normalize (p : string) : string :=
  if is_empty p then "."
  else
    let isAbsolute := starts_with_slash p in
    let trailingSeparator := ends_with_slash p in
    let q := normalizeString p (negb isAbsolute) in
    if is_empty q then
      if isAbsolute then "/" else if trailingSeparator then "./" else "."
    else
      let q' := if trailingSeparator then q +:+ "/" else q in
      if isAbsolute then "/" +:+ q' else q'.

Definition join (a b : string) : string :=
  match is_empty a, is_empty b with
  | true, true => "."
  | true, false => normalize b
  | false, true => normalize a
  | false, false => normalize (a +:+ "/" +:+ b)
  end.

(** The arguments are read from the last one back to the working
    directory until an absolute path is reached; empty ones are skipped. *)
Definition resolve (cwd : string) (p : string) : string :=
  let with_p := if is_empty p then "" else p +:+ "/" in
  let '(resolvedPath, resolvedAbsolute) :=
    if starts_with_slash p then (with_p, true)
    else if is_empty cwd then (with_p, false)
    else (cwd +:+ "/" +:+ with_p, starts_with_slash cwd) in
  let q := normalizeString resolvedPath (negb resolvedAbsolute) in
  if resolvedAbsolute then "/" +:+ q
  else if is_empty q then "." else q.

End Posix.

(** ** Results, calls and the state of the process *)

(** A JavaScript call returns a value or throws; an awaited promise
    resolves or rejects.  The thrown value is kept as its message. *)
Inductive result (A : Type) : Type :=
| Ok (a : A)
| Throw (e : string).
Arguments Ok {A} a.
Arguments Throw {A} e.

(** The handle [setInterval] returns. *)
Definition Timeout := nat.

(** The functions handed to [setInterval]. *)
Inductive callback := CbAcquireLock.

(** What the module asks of its collaborators, with what they answered. *)
Inductive call : Type :=
| CallLock (file : string) (r : result unit)
| CallUnlock (file : string) (r : result unit)
| CallCheckSync (file : string) (r : result bool)
| CallExistsSync (file : string) (r : bool)
| CallConsoleLog (msg : string)
| CallConsoleError (msg : string) (e : string)
| CallSetInterval (cb : callback) (ms : Z) (t : Timeout)
| CallClearInterval (t : Timeout)
| CallProcessExit.

(** ** The platform

    What the module takes from outside: [os.homedir()], [path.join(a, b)]
    and [path.resolve(p)] as the platform and the working directory of
    the process give them; the file system and [proper-lockfile], with a
    state [Ext] shared with the other processes of the host and the four
    calls the module makes.  [lock] and [unlock] return promises,
    [checkSync] returns a boolean or throws, [existsSync] returns a
    boolean. *)
Class Platform : Type := {
  homedir : string;
  path_join : string → string → string;
  path_resolve : string → string;
  Ext : Type;
  lockfile_lock : string → Ext → result unit * Ext;
  lockfile_unlock : string → Ext → result unit * Ext;
  lockfile_checkSync : string → Ext → result bool * Ext;
  fs_existsSync : string → Ext → bool;
}.

Section Lock.

Context {P : Platform}.

Definition CONTEXT_DIR : string := path_join homedir ".context".
Definition LOCK_FILE : string := path_join CONTEXT_DIR "leader.lock".
Definition LOCKS_DIR : string := path_join CONTEXT_DIR "locks".

(** The module's variables ([isLeader], [lockInterval],
    [heldCodebaseLocks]), the intervals Node keeps active, the state of
    the collaborators, and the calls made so far, oldest first. *)
Record World : Type := mkWorld {
  isLeader : bool;
  lockInterval : option Timeout;
  heldCodebaseLocks : gmap string string;
  intervals : list (Timeout * (callback * Z));
  nextTimeout : Timeout;
  ext : Ext;
  calls : list call;
}.

Definition set_isLeader (b : bool) (w : World) : World :=
  mkWorld b (lockInterval w) (heldCodebaseLocks w) (intervals w)
          (nextTimeout w) (ext w) (calls w).

Definition set_lockInterval (t : option Timeout) (w : World) : World :=
  mkWorld (isLeader w) t (heldCodebaseLocks w) (intervals w)
          (nextTimeout w) (ext w) (calls w).

Definition set_heldCodebaseLocks (m : gmap string string) (w : World) : World :=
  mkWorld (isLeader w) (lockInterval w) m (intervals w)
          (nextTimeout w) (ext w) (calls w).

Definition set_intervals (l : list (Timeout * (callback * Z))) (n : Timeout)
    (w : World) : World :=
  mkWorld (isLeader w) (lockInterval w) (heldCodebaseLocks w) l n
          (ext w) (calls w).

Definition set_ext (x : Ext) (w : World) : World :=
  mkWorld (isLeader w) (lockInterval w) (heldCodebaseLocks w) (intervals w)
          (nextTimeout w) x (calls w).

Definition record (c : call) (w : World) : World :=
  mkWorld (isLeader w) (lockInterval w) (heldCodebaseLocks w) (intervals w)
          (nextTimeout w) (ext w) (calls w ++ [c]).

(** The state at module load. *)
Definition init (x : Ext) : World := mkWorld false None ∅ [] 0 x [].

(** *** Computations that read and write the world and may throw *)

Definition M (A : Type) : Type := World → result A * World.

Definition ret {A} (a : A) : M A := λ w, (Ok a, w).

Definition bind {A B} (m : M A) (k : A → M B) : M B :=
  λ w, match m w with
       | (Ok a, w') => k a w'
       | (Throw e, w') => (Throw e, w')
       end.

(** [try { m } catch (error) { h error }] *)
Definition try_catch {A} (m : M A) (h : string → M A) : M A :=
  λ w, match m w with
       | (Ok a, w') => (Ok a, w')
       | (Throw e, w') => h e w'
       end.

Definition gets {A} (f : World → A) : M A := λ w, (Ok (f w), w).
Definition modify (f : World → World) : M unit := λ w, (Ok tt, f w).

Notation "x <- m ;; k" := (bind m (λ x, k))
  (at level 100, m at next level, right associativity).
Notation "m ;; k" := (bind m (λ _, k))
  (at level 100, right associativity).

Fixpoint for_each {A} (l : list A) (f : A → M unit) : M unit :=
  match l with
  | [] => ret tt
  | a :: l' => f a ;; for_each l' f
  end.

(** *** The calls *)

(** [await lockfile.lock(file, { retries: 0, realpath: false })] *)
Definition lock (file : string) : M unit :=
  λ w, let '(r, x) := lockfile_lock file (ext w) in
       (r, record (CallLock file r) (set_ext x w)).

(** [await lockfile.unlock(file, { realpath: false })] *)
Definition unlock (file : string) : M unit :=
  λ w, let '(r, x) := lockfile_unlock file (ext w) in
       (r, record (CallUnlock file r) (set_ext x w)).

(** [lockfile.checkSync(file, { realpath: false })] *)
Definition checkSync (file : string) : M bool :=
  λ w, let '(r, x) := lockfile_checkSync file (ext w) in
       (r, record (CallCheckSync file r) (set_ext x w)).

(** [fs.existsSync(file)] *)
Definition existsSync (file : string) : M bool :=
  λ w, let b := fs_existsSync file (ext w) in
       (Ok b, record (CallExistsSync file b) w).

Definition console_log (msg : string) : M unit :=
  modify (record (CallConsoleLog msg)).

Definition console_error (msg : string) (e : string) : M unit :=
  modify (record (CallConsoleError msg e)).

(** [setInterval(cb, ms)]: a fresh handle, active until cleared. *)
Definition setInterval (cb : callback) (ms : Z) : M Timeout :=
  λ w, let t := nextTimeout w in
       (Ok t, record (CallSetInterval cb ms t)
                (set_intervals (intervals w ++ [(t, (cb, ms))]) (S t) w)).

(** [clearInterval(t)] *)
Definition clearInterval (t : Timeout) : M unit :=
  λ w, (Ok tt, record (CallClearInterval t)
                 (set_intervals
                    (List.filter (λ i, negb (Nat.eqb (fst i) t)) (intervals w))
                    (nextTimeout w) w)).

(** [process.exit()] *)
Definition process_exit : M unit := modify (record CallProcessExit).

(** *** The functions of the module *)

Definition acquireLock : M bool :=
  leader <- gets isLeader ;;
  if leader then ret true
  else
    try_catch
      (lock LOCK_FILE ;;
       modify (set_isLeader true) ;;
       console_log "Acquired leader lock. This process is now the leader." ;;
       (i <- gets lockInterval ;;
        match i with
        | Some t => clearInterval t ;; modify (set_lockInterval None)
        | None => ret tt
        end) ;;
       ret true)
      (λ error,
       console_log "Could not acquire leader lock, running as follower." ;;
       modify (set_isLeader false) ;;
       (i <- gets lockInterval ;;
        match i with
        | None =>
            t <- setInterval CbAcquireLock 5000 ;;
            modify (set_lockInterval (Some t))
        | Some _ => ret tt
        end) ;;
       ret false).

Definition releaseLock : M unit :=
  leader <- gets isLeader ;;
  if leader then
    try_catch
      (unlock LOCK_FILE ;;
       modify (set_isLeader false) ;;
       console_log "Released leader lock.")
      (λ error, console_error "Error releasing leader lock:" error)
  else ret tt.

Definition isCurrentProcessLeader : M bool := gets isLeader.

Definition getLockFilePath : M string := ret LOCK_FILE.

Definition getCodebaseLockPath (codebasePath : string) : string :=
  let normalizedPath := path_resolve codebasePath in
  let hash := MD5.md5_hex normalizedPath in
  path_join LOCKS_DIR hash.

(** [heldCodebaseLocks.has(k)] *)
Definition has (k : string) (m : gmap string string) : bool :=
  bool_decide (is_Some (m !! k)).

(** [!lockPath] for [lockPath : string | undefined]: [undefined] and the
    empty string are falsy. *)
Definition falsy (v : option string) : bool :=
  match v with
  | None => true
  | Some s => Posix.is_empty s
  end.

Definition acquireCodebaseLock (codebasePath : string) : M bool :=
  held <- gets (λ w, has codebasePath (heldCodebaseLocks w)) ;;
  if held then ret true
  else
    let lockPath := getCodebaseLockPath codebasePath in
    try_catch
      (lock lockPath ;;
       modify (λ w, set_heldCodebaseLocks
                      (<[codebasePath := lockPath]> (heldCodebaseLocks w)) w) ;;
       console_log ("[LOCK] Acquired codebase lock for: " +:+ codebasePath) ;;
       ret true)
      (λ error,
       console_log ("[LOCK] Codebase lock already held by another process: "
                    +:+ codebasePath) ;;
       ret false).

Definition releaseCodebaseLock (codebasePath : string) : M unit :=
  lockPath <- gets (λ w, heldCodebaseLocks w !! codebasePath) ;;
  if falsy lockPath then ret tt
  else
    try_catch
      (unlock (default "" lockPath) ;;
       modify (λ w, set_heldCodebaseLocks
                      (delete codebasePath (heldCodebaseLocks w)) w) ;;
       console_log ("[LOCK] Released codebase lock for: " +:+ codebasePath))
      (λ error,
       console_error ("[LOCK] Error releasing codebase lock for "
                      +:+ codebasePath +:+ ":") error).

(** [Array.from(heldCodebaseLocks.keys())].  A JavaScript [Map] lists its
    keys in insertion order; the model lists each key once, in the order
    of the finite map. *)
Definition keys (m : gmap string string) : list string :=
  (map_to_list m).*1.

Definition releaseAllCodebaseLocks : M unit :=
  lockPaths <- gets (λ w, keys (heldCodebaseLocks w)) ;;
  for_each lockPaths releaseCodebaseLock.

Definition isCodebaseLocked (codebasePath : string) : M bool :=
  let lockPath := getCodebaseLockPath codebasePath in
  let lockFilePath := lockPath +:+ ".lock" in
  present <- existsSync lockFilePath ;;
  if negb present then ret false
  else
    try_catch
      (checkSync lockPath ;;
       ret true)
      (λ error, ret false).

(** *** The listeners of the signals

    A signal listener is called from the event loop, which goes on
    running while the listener awaits, so the listener runs to its
    end.  The listener of [exit] is not like that, see [on_exit]. *)

Definition on_SIGINT : M unit :=
  releaseAllCodebaseLocks ;;
  releaseLock ;;
  process_exit.

Definition on_SIGTERM : M unit :=
  releaseAllCodebaseLocks ;;
  releaseLock ;;
  process_exit.

(** *** Runs of the process

    What can happen to the world between two moments: a call of one of
    the functions, an active interval firing its callback, or the other
    processes of the host changing the file system and the locks.  Each
    call runs to its end before the next step starts. *)
Inductive op : Type :=
| OpAcquireLock
| OpReleaseLock
| OpInterval (t : Timeout)
| OpAcquireCodebaseLock (codebasePath : string)
| OpReleaseCodebaseLock (codebasePath : string)
| OpReleaseAllCodebaseLocks
| OpIsCodebaseLocked (codebasePath : string)
| OpOthers (x : Ext).

Definition run_callback (cb : callback) : M unit :=
  match cb with
  | CbAcquireLock => acquireLock ;; ret tt
  end.

(** The interval [t] fires: nothing happens unless Node holds it active. *)
Definition fire (t : Timeout) (w : World) : option World :=
  match List.find (λ i, Nat.eqb (fst i) t) (intervals w) with
  | Some (_, (cb, _)) => Some (snd (run_callback cb w))
  | None => None
  end.

Definition exec (o : op) (w : World) : option World :=
  match o with
  | OpAcquireLock => Some (snd (acquireLock w))
  | OpReleaseLock => Some (snd (releaseLock w))
  | OpInterval t => fire t w
  | OpAcquireCodebaseLock r => Some (snd (acquireCodebaseLock r w))
  | OpReleaseCodebaseLock r => Some (snd (releaseCodebaseLock r w))
  | OpReleaseAllCodebaseLocks => Some (snd (releaseAllCodebaseLocks w))
  | OpIsCodebaseLocked r => Some (snd (isCodebaseLocked r w))
  | OpOthers x => Some (set_ext x w)
  end.

Fixpoint run (os : list op) (w : World) : option World :=
  match os with
  | [] => Some w
  | o :: os' =>
      match exec o w with
      | Some w' => run os' w'
      | None => None
      end
  end.

(** The leader-lock operations, and the resource-lock operations. *)
Definition leader_op (o : op) : bool :=
  match o with
  | OpAcquireLock | OpReleaseLock | OpInterval _ | OpOthers _ => true
  | _ => false
  end.

Definition resource_op (o : op) : bool :=
  match o with
  | OpAcquireCodebaseLock _ | OpReleaseCodebaseLock _
  | OpReleaseAllCodebaseLocks | OpOthers _ => true
  | _ => false
  end.

Definition any_op (o : op) : bool := true.

(** [w] is the state after some run of operations allowed by [allowed],
    started at module load. *)
Definition reachable (allowed : op → bool) (w : World) : Prop :=
  ∃ (x : Ext) (os : list op),
    forallb allowed os = true ∧ run os (init x) = Some w.

(** *** What the calls made so far say *)

(** The answers of [proper-lockfile] to the attempts on the leader lock,
    oldest first: [true] for an attempt that succeeded. *)
Definition leader_attempts (cs : list call) : list bool :=
  omap (λ c, match c with
             | CallLock f (Ok _) =>
                 if String.eqb f LOCK_FILE then Some true else None
             | CallLock f (Throw _) =>
                 if String.eqb f LOCK_FILE then Some false else None
             | _ => None
             end) cs.

(** At least one acquisition attempt has failed. *)
Definition some_attempt_failed (w : World) : bool :=
  existsb negb (leader_attempts (calls w)).

(** *** Invariants *)

(** The intervals Node holds active are exactly the retry timer of the
    module: none, or the one of [lockInterval], calling [acquireLock]
    every 5000 ms. *)
Definition one_timer (w : World) : Prop :=
  intervals w = match lockInterval w with
                | Some t => [(t, (CbAcquireLock, 5000%Z))]
                | None => []
                end.

(** Every held lock is stored under the path computed from its key. *)
Definition paths_computed (w : World) : Prop :=
  ∀ k v, heldCodebaseLocks w !! k = Some v → v = getCodebaseLockPath k.

(** [w'] has the leader slot of [w]. *)
Definition same_leader_slot (w w' : World) : Prop :=
  isLeader w' = isLeader w ∧ lockInterval w' = lockInterval w ∧
  intervals w' = intervals w ∧ nextTimeout w' = nextTimeout w.

(** The entries of the map of held locks whose key is [r]. *)
Definition held_entries (r : string) (w : World) : list (string * string) :=
  filter (λ kv, kv.1 = r) (map_to_list (heldCodebaseLocks w)).

(** The calls a release of codebase locks may make. *)
Definition is_release_call (c : call) : bool :=
  match c with
  | CallUnlock _ _ | CallConsoleLog _ | CallConsoleError _ _ => true
  | _ => false
  end.

End Lock.

(** ** Calls that overlap

    [acquireLock] and [releaseLock] are [async]: a call runs up to its
    [await], and the rest of its body runs later, when the promise has
    settled.  Other calls and timers can run in between.  This section
    cuts the two functions at their [await]. *)

(** A call suspended at its [await], with the answer its promise settles
    to: [acquireLock] at [await lockfile.lock(...)], [releaseLock] at
    [await lockfile.unlock(...)]. *)
Inductive suspended : Type :=
| AwaitLock (r : result unit)
| AwaitUnlock (r : result unit).

(** How far a call got before it gave control back. *)
Inductive progress (A : Type) : Type :=
| Returned (a : A)
| Suspended (s : suspended).
Arguments Returned {A} a.
Arguments Suspended {A} s.

Section Overlap.

Context {P : Platform}.

Notation "x <- m ;; k" := (bind m (λ x, k))
  (at level 100, m at next level, right associativity).
Notation "m ;; k" := (bind m (λ _, k))
  (at level 100, right associativity).

(** [lockfile.lock(file, ...)] is called and returns its promise. *)
Definition lock_promise (file : string) : M (result unit) :=
  λ w, let '(r, x) := lockfile_lock file (ext w) in
       (Ok r, record (CallLock file r) (set_ext x w)).

(** [lockfile.unlock(file, ...)] is called and returns its promise. *)
Definition unlock_promise (file : string) : M (result unit) :=
  λ w, let '(r, x) := lockfile_unlock file (ext w) in
       (Ok r, record (CallUnlock file r) (set_ext x w)).

(** The awaited promise has settled: the call goes on with its value, or
    with its rejection thrown. *)
Definition settled (r : result unit) : M unit := λ w, (r, w).

(** [acquireLock] up to its [await]. *)
Definition acquireLock_start : M (progress bool) :=
  leader <- gets isLeader ;;
  if leader then ret (Returned true)
  else
    r <- lock_promise LOCK_FILE ;;
    ret (Suspended (AwaitLock r)).

(** [acquireLock] from its [await] on. *)
Definition acquireLock_resume (r : result unit) : M bool :=
  try_catch
    (settled r ;;
     modify (set_isLeader true) ;;
     console_log "Acquired leader lock. This process is now the leader." ;;
     (i <- gets lockInterval ;;
      match i with
      | Some t => clearInterval t ;; modify (set_lockInterval None)
      | None => ret tt
      end) ;;
     ret true)
    (λ error,
     console_log "Could not acquire leader lock, running as follower." ;;
     modify (set_isLeader false) ;;
     (i <- gets lockInterval ;;
      match i with
      | None =>
          t <- setInterval CbAcquireLock 5000 ;;
          modify (set_lockInterval (Some t))
      | Some _ => ret tt
      end) ;;
     ret false).

(** [releaseLock] up to its [await]. *)
Definition releaseLock_start : M (progress unit) :=
  leader <- gets isLeader ;;
  if leader then
    r <- unlock_promise LOCK_FILE ;;
    ret (Suspended (AwaitUnlock r))
  else ret (Returned tt).

(** [releaseLock] from its [await] on. *)
Definition releaseLock_resume (r : result unit) : M unit :=
  try_catch
    (settled r ;;
     modify (set_isLeader false) ;;
     console_log "Released leader lock.")
    (λ error, console_error "Error releasing leader lock:" error).

(** The rest of a suspended call; what it returns goes to a promise
    nobody in the module reads. *)
Definition resume (s : suspended) : M unit :=
  match s with
  | AwaitLock r => acquireLock_resume r ;; ret tt
  | AwaitUnlock r => releaseLock_resume r
  end.

(** The module's state and the calls that are suspended, oldest first. *)
Record Config : Type := mkConfig {
  world : World;
  awaiting : list suspended;
}.

Definition init_config (x : Ext) : Config := mkConfig (init x) [].

(** A call gave control back: it returned, or it joins the suspended
    calls. *)
Definition park {A} (c : result (progress A) * World) (q : list suspended)
  : Config :=
  match c with
  | (Ok (Suspended s), w) => mkConfig w (q ++ [s])
  | (_, w) => mkConfig w q
  end.

(** What can happen: a call of one of the two functions starts, an
    active interval fires and starts a call of its callback, one of the
    suspended calls goes on, or the other processes change the files. *)
Inductive async_op : Type :=
| StartAcquireLock
| StartReleaseLock
| IntervalFires (t : Timeout)
| Settles (i : nat)
| OthersChange (x : Ext).

Definition async_exec (o : async_op) (c : Config) : option Config :=
  match o with
  | StartAcquireLock => Some (park (acquireLock_start (world c)) (awaiting c))
  | StartReleaseLock => Some (park (releaseLock_start (world c)) (awaiting c))
  | IntervalFires t =>
      match List.find (λ i, Nat.eqb (fst i) t) (intervals (world c)) with
      | Some (_, (CbAcquireLock, _)) =>
          Some (park (acquireLock_start (world c)) (awaiting c))
      | None => None
      end
  | Settles i =>
      match awaiting c !! i with
      | Some s =>
          Some (mkConfig (snd (resume s (world c))) (delete i (awaiting c)))
      | None => None
      end
  | OthersChange x => Some (mkConfig (set_ext x (world c)) (awaiting c))
  end.

Fixpoint async_run (os : list async_op) (c : Config) : option Config :=
  match os with
  | [] => Some c
  | o :: os' =>
      match async_exec o c with
      | Some c' => async_run os' c'
      | None => None
      end
  end.

(** Whether the step [o] makes a suspended call of [acquireLock] go on,
    and with which answer: [true] for an attempt that was granted. *)
Definition settles_attempt (o : async_op) (c : Config) : option bool :=
  match o with
  | Settles i =>
      match awaiting c !! i with
      | Some (AwaitLock (Ok _)) => Some true
      | Some (AwaitLock (Throw _)) => Some false
      | _ => None
      end
  | _ => None
  end.

(** The attempts on the leader lock that have settled during the run
    [os] from [c], in the order in which their calls went on. *)
Fixpoint settled_attempts (os : list async_op) (c : Config) : list bool :=
  match os with
  | [] => []
  | o :: os' =>
      match async_exec o c with
      | Some c' =>
          match settles_attempt o c with
          | Some b => b :: settled_attempts os' c'
          | None => settled_attempts os' c'
          end
      | None => []
      end
  end.

(** *** The listener of [exit]

    [process.on('exit', async () => { await releaseAllCodebaseLocks();
    await releaseLock(); })].  Node calls the listeners of [exit] and
    exits when they have returned, and an [async] listener returns at
    its first [await]: what it awaits there is never resumed once the
    promise is one that the event loop has yet to settle, as the promise
    of [lockfile.unlock] is. *)

(** Where the listener gives control back: at [await
    lockfile.unlock(file, ...)], the call made and its promise [r] not
    waited for, or at the [await] of a promise of the module that has
    nothing left to wait for. *)
Inductive exit_stop : Type :=
| StopAtUnlock (file : string) (r : result unit)
| StopAtSettled.

(** The listener up to its first [await].  The call of
    [releaseAllCodebaseLocks] runs to the first [await] of its loop and
    the call of [releaseCodebaseLock] in it to its own [await]; with no
    key, or no path for the first key, nothing is called. *)
Definition on_exit : M exit_stop :=
  lockPaths <- gets (λ w, keys (heldCodebaseLocks w)) ;;
  match lockPaths with
  | [] => ret StopAtSettled
  | codebasePath :: _ =>
      lockPath <- gets (λ w, heldCodebaseLocks w !! codebasePath) ;;
      if falsy lockPath then ret StopAtSettled
      else
        r <- unlock_promise (default "" lockPath) ;;
        ret (StopAtUnlock (default "" lockPath) r)
  end.

(** What the retry timer obeys in every state, overlap or not. *)
Definition timer_sound (w : World) : Prop :=
  one_timer w ∧ (isLeader w = true → lockInterval w = None).

(** [c] is reached by some run with overlapping calls, started at module
    load. *)
Definition async_reachable (c : Config) : Prop :=
  ∃ (x : Ext) (os : list async_op), async_run os (init_config x) = Some c.

End Overlap.

(** ** A platform to run on

    A POSIX host with home [/home/u] and working directory
    [/home/u/work], and [proper-lockfile] reduced to what the module sees
    of it: [mine] are the files this process holds, [others] those held
    by other live processes, [stale] those whose lock directory was left
    by a dead process. *)
Module Sim.

Record files : Type := Files {
  mine : list string;
  others : list string;
  stale : list string;
}.

Definition mem (f : string) (l : list string) : bool :=
  existsb (String.eqb f) l.

Definition remove (f : string) (l : list string) : list string :=
  List.filter (λ g, negb (String.eqb f g)) l.

(** A stale lock is taken over; a live one refuses. *)
Definition lock (f : string) (x : files) : result unit * files :=
  if mem f (mine x) || mem f (others x) then
    (Throw "Lock file is already being held", x)
  else (Ok tt, Files (f :: mine x) (others x) (remove f (stale x))).

Definition unlock (f : string) (x : files) : result unit * files :=
  if mem f (mine x) then
    (Ok tt, Files (remove f (mine x)) (others x) (stale x))
  else (Throw "Lock is not acquired/owned by you", x).

(** [true] for a lock that is held and not stale. *)
Definition checkSync (f : string) (x : files) : result bool * files :=
  (Ok (mem f (mine x) || mem f (others x)), x).

Definition existsSync (p : string) (x : files) : bool :=
  mem p (map (λ f, f +:+ ".lock") (mine x ++ others x ++ stale x)).

Definition platform : Platform := {|
  homedir := "/home/u";
  path_join := Posix.join;
  path_resolve := Posix.resolve "/home/u/work";
  Ext := files;
  lockfile_lock := lock;
  lockfile_unlock := unlock;
  lockfile_checkSync := checkSync;
  fs_existsSync := existsSync;
|}.

Definition free : files := Files [] [] [].

End Sim.
(** ** Runs on that platform *)
Module Scenario.

#[local] Existing Instance Sim.platform.

(** The world after the operations [os], started at module load on the
    files [x]; the world at load when an interval of [os] is not active. *)
Definition after (os : list op) (x : Sim.files) : World :=
  default (init x) (run os (init x)).

(** Another live process holds the leader lock. *)
Definition contended : Sim.files := Sim.Files [] [LOCK_FILE] [].

(** This process has just loaded the module while another one leads. *)
Definition newcomer : World := init contended.

(** This process is the leader. *)
Definition leader : World := after [OpAcquireLock] Sim.free.

(** This process lost the election and retries. *)
Definition follower : World := after [OpAcquireLock] contended.

(** This process is the leader and the lock was taken away from it: the
    lock directory was removed from outside. *)
Definition leader_compromised : World :=
  after [OpAcquireLock; OpOthers Sim.free] Sim.free.

(** This process lost the election, won it on the first retry after the
    other process left, and then gave leadership up. *)
Definition retirement : list op :=
  [OpAcquireLock; OpOthers Sim.free; OpInterval 0; OpReleaseLock].

Definition retired : World := after retirement contended.

Definition repo : string := "../repo".

(** The lock of [repo] is free, and then held by this process. *)
Definition holding : World := after [OpAcquireCodebaseLock repo] Sim.free.

(** This process holds the lock of [repo] and the lock was taken away
    from it. *)
Definition holding_compromised : World :=
  after [OpAcquireCodebaseLock repo; OpOthers Sim.free] Sim.free.

(** A process died holding the lock of [repo]: its lock directory is
    still on disk. *)
Definition orphaned : World :=
  init (Sim.Files [] [] [getCodebaseLockPath repo]).

(** This process is the leader and holds two codebase locks. *)
Definition busy : World :=
  after [OpAcquireLock; OpAcquireCodebaseLock repo;
         OpAcquireCodebaseLock "/srv/data"] Sim.free.

End Scenario.

(** ** More runs on that platform *)
Module Further.

#[local] Existing Instance Sim.platform.

Import Scenario.

(** This process lost the election and retries; the other process has
    left since. *)
Definition freed : World :=
  after [OpAcquireLock; OpOthers Sim.free] contended.

(** This process lost the election and won it on the first retry. *)
Definition promoted : World :=
  after [OpAcquireLock; OpOthers Sim.free; OpInterval 0] contended.

(** Another name of [repo]. *)
Definition repo_alias : string := "/home/u/repo".

(** Two calls of [acquireLock] overlap on a free lock: both are
    suspended, the first one was granted the lock and has gone on, the
    second one was refused and has not gone on yet. *)
Definition racing : Config :=
  default (init_config Sim.free)
    (async_run [StartAcquireLock; StartAcquireLock; Settles 0]
       (init_config Sim.free)).

(** Two calls of [acquireLock] overlap on a free lock, the refused one
    goes on first and the granted one after it; then the process gives
    leadership up. *)
Definition overtaking : list async_op :=
  [StartAcquireLock; StartAcquireLock; Settles 1; Settles 0;
   StartReleaseLock; Settles 0].

Definition overtaken : Config :=
  default (init_config Sim.free)
    (async_run overtaking (init_config Sim.free)).

End Further.

Example md5_empty : MD5.md5_hex "" = "d41d8cd98f00b204e9800998ecf8427e".
Proof. vm_compute. reflexivity. Qed.

Example md5_abc : MD5.md5_hex "abc" = "900150983cd24fb0d6963f7d28e17f72".
Proof. vm_compute. reflexivity. Qed.

Example md5_path : MD5.md5_hex "/home/u/repo" = "2bcea0c275935c2226d0cbb7cb1b7311".
Proof. vm_compute. reflexivity. Qed.

Example md5_two_blocks :
  MD5.md5_hex "aaaaaaaaaaaaaaaaaaaaaaaaaaaaaaaaaaaaaaaaaaaaaaaaaaaaaaaa"
  = "3b0c8ac703f828b04c6c197006d17218".
Proof. vm_compute. reflexivity. Qed.

Example posix_resolve_relative :
  Posix.resolve "/home/u" "proj/../repo/" = "/home/u/repo".
Proof. vm_compute. reflexivity. Qed.

Example posix_resolve_absolute :
  Posix.resolve "/home/u" "/srv//data/./x/.." = "/srv/data".
Proof. vm_compute. reflexivity. Qed.

Example posix_join_locks :
  Posix.join (Posix.join "/home/u" ".context") "locks" = "/home/u/.context/locks".
Proof. vm_compute. reflexivity. Qed.


(** Unfolds a function of the module down to the world it returns. *)
Ltac step_through :=
  unfold console_log, console_error, process_exit;
  unfold bind, gets, ret, try_catch, lock, unlock, checkSync, existsSync,
    modify, setInterval, clearInterval;
  simpl.

Ltac world_eq :=
  unfold set_isLeader, set_lockInterval, set_heldCodebaseLocks,
    set_intervals, set_ext, record;
  simpl; rewrite <- ?app_assoc; simpl.

Section Properties.

Context {P : Platform}.

Implicit Types (w : World) (r : string).

(** *** The leader lock, one call at a time *)

Lemma acquireLock_leader w :
  isLeader w = true → acquireLock w = (Ok true, w).
Proof.
  intros H. unfold acquireLock. step_through. by rewrite H.
Qed.

Lemma acquireLock_granted w u x :
  isLeader w = false →
  lockfile_lock LOCK_FILE (ext w) = (Ok u, x) →
  acquireLock w =
    (Ok true,
     mkWorld true None (heldCodebaseLocks w)
       (match lockInterval w with
        | Some t =>
            List.filter (λ i, negb (Nat.eqb (fst i) t)) (intervals w)
        | None => intervals w
        end)
       (nextTimeout w) x
       (calls w ++ [CallLock LOCK_FILE (Ok u);
                    CallConsoleLog
                      "Acquired leader lock. This process is now the leader."]
                ++ match lockInterval w with
                   | Some t => [CallClearInterval t]
                   | None => []
                   end)).
Proof.
  intros Hl Hx.
  unfold acquireLock. step_through. rewrite Hl, Hx. simpl.
  destruct (lockInterval w) eqn:Hi; world_eq; rewrite ?Hi; reflexivity.
Qed.

Lemma acquireLock_refused w e x :
  isLeader w = false →
  lockfile_lock LOCK_FILE (ext w) = (Throw e, x) →
  acquireLock w =
    (Ok false,
     let said :=
       calls w ++ [CallLock LOCK_FILE (Throw e);
                   CallConsoleLog
                     "Could not acquire leader lock, running as follower."] in
     match lockInterval w with
     | Some t =>
         mkWorld false (Some t) (heldCodebaseLocks w) (intervals w)
           (nextTimeout w) x said
     | None =>
         mkWorld false (Some (nextTimeout w)) (heldCodebaseLocks w)
           (intervals w ++ [(nextTimeout w, (CbAcquireLock, 5000%Z))])
           (S (nextTimeout w)) x
           (said ++ [CallSetInterval CbAcquireLock 5000 (nextTimeout w)])
     end).
Proof.
  intros Hl Hx.
  unfold acquireLock. step_through. rewrite Hl, Hx. simpl.
  destruct (lockInterval w) eqn:Hi; world_eq; rewrite ?Hi; reflexivity.
Qed.

Lemma releaseLock_follower w :
  isLeader w = false → releaseLock w = (Ok tt, w).
Proof.
  intros H. unfold releaseLock. step_through. by rewrite H.
Qed.

Lemma releaseLock_released w u x :
  isLeader w = true →
  lockfile_unlock LOCK_FILE (ext w) = (Ok u, x) →
  releaseLock w =
    (Ok tt,
     mkWorld false (lockInterval w) (heldCodebaseLocks w) (intervals w)
       (nextTimeout w) x
       (calls w ++ [CallUnlock LOCK_FILE (Ok u);
                    CallConsoleLog "Released leader lock."])).
Proof.
  intros Hl Hx.
  unfold releaseLock. step_through. rewrite Hl, Hx. world_eq. reflexivity.
Qed.

Lemma releaseLock_failed w e x :
  isLeader w = true →
  lockfile_unlock LOCK_FILE (ext w) = (Throw e, x) →
  releaseLock w =
    (Ok tt,
     mkWorld true (lockInterval w) (heldCodebaseLocks w) (intervals w)
       (nextTimeout w) x
       (calls w ++ [CallUnlock LOCK_FILE (Throw e);
                    CallConsoleError "Error releasing leader lock:" e])).
Proof.
  intros Hl Hx.
  unfold releaseLock. step_through. rewrite Hl, Hx. world_eq.
  rewrite Hl. reflexivity.
Qed.

(** *** The codebase locks, one call at a time *)

Lemma acquireCodebaseLock_held w r :
  has r (heldCodebaseLocks w) = true → acquireCodebaseLock r w = (Ok true, w).
Proof.
  intros H. unfold acquireCodebaseLock. step_through. by rewrite H.
Qed.

Lemma acquireCodebaseLock_granted w r u x :
  has r (heldCodebaseLocks w) = false →
  lockfile_lock (getCodebaseLockPath r) (ext w) = (Ok u, x) →
  acquireCodebaseLock r w =
    (Ok true,
     mkWorld (isLeader w) (lockInterval w)
       (<[r := getCodebaseLockPath r]> (heldCodebaseLocks w))
       (intervals w) (nextTimeout w) x
       (calls w ++ [CallLock (getCodebaseLockPath r) (Ok u);
                    CallConsoleLog
                      ("[LOCK] Acquired codebase lock for: " +:+ r)])).
Proof.
  intros Hh Hx. unfold acquireCodebaseLock. step_through.
  rewrite Hh, Hx. world_eq. reflexivity.
Qed.

Lemma acquireCodebaseLock_refused w r e x :
  has r (heldCodebaseLocks w) = false →
  lockfile_lock (getCodebaseLockPath r) (ext w) = (Throw e, x) →
  acquireCodebaseLock r w =
    (Ok false,
     mkWorld (isLeader w) (lockInterval w) (heldCodebaseLocks w)
       (intervals w) (nextTimeout w) x
       (calls w ++ [CallLock (getCodebaseLockPath r) (Throw e);
                    CallConsoleLog
                      ("[LOCK] Codebase lock already held by another process: "
                       +:+ r)])).
Proof.
  intros Hh Hx. unfold acquireCodebaseLock. step_through.
  rewrite Hh, Hx. world_eq. reflexivity.
Qed.

Lemma releaseCodebaseLock_not_held w r :
  falsy (heldCodebaseLocks w !! r) = true →
  releaseCodebaseLock r w = (Ok tt, w).
Proof.
  intros H. unfold releaseCodebaseLock. step_through. by rewrite H.
Qed.

Lemma releaseCodebaseLock_released w r p u x :
  heldCodebaseLocks w !! r = Some p →
  Posix.is_empty p = false →
  lockfile_unlock p (ext w) = (Ok u, x) →
  releaseCodebaseLock r w =
    (Ok tt,
     mkWorld (isLeader w) (lockInterval w) (delete r (heldCodebaseLocks w))
       (intervals w) (nextTimeout w) x
       (calls w ++ [CallUnlock p (Ok u);
                    CallConsoleLog
                      ("[LOCK] Released codebase lock for: " +:+ r)])).
Proof.
  intros Hh Hp Hx. unfold releaseCodebaseLock. step_through.
  rewrite Hh. simpl. rewrite Hp, Hx. world_eq. reflexivity.
Qed.

Lemma releaseCodebaseLock_failed w r p e x :
  heldCodebaseLocks w !! r = Some p →
  Posix.is_empty p = false →
  lockfile_unlock p (ext w) = (Throw e, x) →
  releaseCodebaseLock r w =
    (Ok tt,
     mkWorld (isLeader w) (lockInterval w) (heldCodebaseLocks w)
       (intervals w) (nextTimeout w) x
       (calls w ++ [CallUnlock p (Throw e);
                    CallConsoleError
                      ("[LOCK] Error releasing codebase lock for "
                       +:+ r +:+ ":") e])).
Proof.
  intros Hh Hp Hx. unfold releaseCodebaseLock. step_through.
  rewrite Hh. simpl. rewrite Hp, Hx. world_eq. reflexivity.
Qed.

Lemma isCodebaseLocked_absent w r :
  fs_existsSync (getCodebaseLockPath r +:+ ".lock") (ext w) = false →
  isCodebaseLocked r w =
    (Ok false,
     record (CallExistsSync (getCodebaseLockPath r +:+ ".lock") false) w).
Proof.
  intros H. unfold isCodebaseLocked. step_through. by rewrite H.
Qed.

Lemma isCodebaseLocked_checked w r b x :
  fs_existsSync (getCodebaseLockPath r +:+ ".lock") (ext w) = true →
  lockfile_checkSync (getCodebaseLockPath r) (ext w) = (Ok b, x) →
  isCodebaseLocked r w =
    (Ok true,
     mkWorld (isLeader w) (lockInterval w) (heldCodebaseLocks w)
       (intervals w) (nextTimeout w) x
       (calls w ++ [CallExistsSync (getCodebaseLockPath r +:+ ".lock") true;
                    CallCheckSync (getCodebaseLockPath r) (Ok b)])).
Proof.
  intros He Hx. unfold isCodebaseLocked. step_through.
  rewrite He. simpl. rewrite Hx. world_eq. reflexivity.
Qed.

Lemma isCodebaseLocked_check_threw w r e x :
  fs_existsSync (getCodebaseLockPath r +:+ ".lock") (ext w) = true →
  lockfile_checkSync (getCodebaseLockPath r) (ext w) = (Throw e, x) →
  isCodebaseLocked r w =
    (Ok false,
     mkWorld (isLeader w) (lockInterval w) (heldCodebaseLocks w)
       (intervals w) (nextTimeout w) x
       (calls w ++ [CallExistsSync (getCodebaseLockPath r +:+ ".lock") true;
                    CallCheckSync (getCodebaseLockPath r) (Throw e)])).
Proof.
  intros He Hx. unfold isCodebaseLocked. step_through.
  rewrite He. simpl. rewrite Hx. world_eq. reflexivity.
Qed.

(** *** Release of the leader lock *)

(** C1, as amended.  A call of [releaseLock] made while the process is
    leader never throws and makes one [unlock] call on the leader lock
    file.  When that call succeeds the leader flag is false afterwards;
    when it fails the failure is reported on the console and the leader
    flag is still true. *)
Theorem releaseLock_while_leader w :
  isLeader w = true →
  ∃ w', releaseLock w = (Ok tt, w') ∧
    match lockfile_unlock LOCK_FILE (ext w) with
    | (Ok u, _) =>
        isLeader w' = false ∧
        calls w' = calls w ++ [CallUnlock LOCK_FILE (Ok u);
                               CallConsoleLog "Released leader lock."]
    | (Throw e, _) =>
        isLeader w' = true ∧
        calls w' = calls w ++ [CallUnlock LOCK_FILE (Throw e);
                               CallConsoleError
                                 "Error releasing leader lock:" e]
    end.
Proof.
  intros Hl.
  destruct (lockfile_unlock LOCK_FILE (ext w)) as [[u|e] x] eqn:Hx.
  - eexists. split; [by apply releaseLock_released|done].
  - eexists. split; [by apply releaseLock_failed|done].
Qed.

(** *** Release of a codebase lock *)

Lemma is_empty_false (p : string) : p ≠ "" → Posix.is_empty p = false.
Proof. by destruct p. Qed.

(** C2, as amended.  A call of [releaseCodebaseLock] on an identifier
    the process holds (stored with a non-empty lock path) never throws
    and makes one [unlock] call on the stored path.  When that call
    succeeds the identifier is no longer in the map; when it throws the
    error is reported on the console and the entry is still there. *)
Theorem releaseCodebaseLock_while_held w r p :
  heldCodebaseLocks w !! r = Some p →
  p ≠ "" →
  ∃ w', releaseCodebaseLock r w = (Ok tt, w') ∧
    match lockfile_unlock p (ext w) with
    | (Ok u, _) =>
        heldCodebaseLocks w' !! r = None ∧
        calls w' = calls w ++ [CallUnlock p (Ok u);
                               CallConsoleLog
                                 ("[LOCK] Released codebase lock for: " +:+ r)]
    | (Throw e, _) =>
        heldCodebaseLocks w' !! r = Some p ∧
        calls w' = calls w ++ [CallUnlock p (Throw e);
                               CallConsoleError
                                 ("[LOCK] Error releasing codebase lock for "
                                  +:+ r +:+ ":") e]
    end.
Proof.
  intros Hh Hp. apply is_empty_false in Hp.
  destruct (lockfile_unlock p (ext w)) as [[u|e] x] eqn:Hx.
  - eexists. split; [by eapply releaseCodebaseLock_released|].
    simpl. by rewrite lookup_delete_eq.
  - eexists. split; [by eapply releaseCodebaseLock_failed|done].
Qed.

(** *** Acquisition of a codebase lock *)

Lemma has_true (m : gmap string string) r :
  has r m = true ↔ is_Some (m !! r).
Proof. unfold has. by rewrite bool_decide_eq_true. Qed.

Lemma no_entry (l : list (string * string)) r :
  r ∉ l.*1 → filter (λ kv, kv.1 = r) l = [].
Proof.
  induction l as [|[k v] l IH]; intros Hr; [done|].
  simpl in Hr. apply not_elem_of_cons in Hr as [Hne Hr].
  rewrite filter_cons_False by (simpl; congruence). by apply IH.
Qed.

Lemma one_entry (l : list (string * string)) r v :
  NoDup l.*1 → (r, v) ∈ l → filter (λ kv, kv.1 = r) l = [(r, v)].
Proof.
  induction l as [|[k v'] l IH]; intros Hnd Hin.
  - by apply elem_of_nil in Hin.
  - simpl in Hnd. apply NoDup_cons in Hnd as [Hk Hnd].
    apply elem_of_cons in Hin as [Heq|Hin].
    + injection Heq as <- <-.
      rewrite filter_cons_True by done. f_equal. by apply no_entry.
    + assert (k ≠ r) as Hne.
      { intros ->. apply Hk. apply list_elem_of_fmap. by exists (r, v). }
      rewrite filter_cons_False by done. by apply IH.
Qed.

Lemma held_entries_one w r v :
  heldCodebaseLocks w !! r = Some v → held_entries r w = [(r, v)].
Proof.
  intros H. unfold held_entries. apply one_entry.
  - apply NoDup_fst_map_to_list.
  - by apply elem_of_map_to_list.
Qed.

(** C7.  [acquireCodebaseLock] is idempotent per identifier.  When the
    map of held locks already has the identifier the call returns [true]
    and leaves the world as it was, so no call reached [proper-lockfile].
    When the lock can be had (the identifier is held already, or
    [proper-lockfile] grants it), two calls in succession both return
    [true], the second changes nothing, and the map has exactly one entry
    for the identifier. *)
Theorem acquireCodebaseLock_idempotent w r :
  (has r (heldCodebaseLocks w) = true →
   acquireCodebaseLock r w = (Ok true, w)) ∧
  (has r (heldCodebaseLocks w) = true ∨
   (∃ x, lockfile_lock (getCodebaseLockPath r) (ext w) = (Ok tt, x)) →
   ∃ w1, acquireCodebaseLock r w = (Ok true, w1) ∧
         acquireCodebaseLock r w1 = (Ok true, w1) ∧
         ∃ v, held_entries r w1 = [(r, v)]).
Proof.
  split; [apply acquireCodebaseLock_held|].
  intros Hav.
  destruct (has r (heldCodebaseLocks w)) eqn:Hh.
  - exists w. rewrite acquireCodebaseLock_held by done.
    split; [done|]. split; [done|].
    apply has_true in Hh as [v Hv]. exists v. by apply held_entries_one.
  - destruct Hav as [|[x Hx]]; [done|].
    eexists. split; [by eapply acquireCodebaseLock_granted|].
    split.
    + apply acquireCodebaseLock_held. apply has_true. simpl.
      rewrite lookup_insert_eq. by eexists.
    + eexists. apply held_entries_one. simpl. by rewrite lookup_insert_eq.
Qed.

(** *** Acquisition by a leader *)

(** C4.  When the process is already leader, [acquireLock] returns
    [true] and leaves the whole world as it was: the leader flag, the
    retry timer, the held locks, the collaborators, and the list of calls
    made, so no call reached [proper-lockfile]. *)
Theorem acquireLock_already_leader w :
  isLeader w = true → acquireLock w = (Ok true, w).
Proof. apply acquireLock_leader. Qed.

(** *** Invariants of the runs *)

Lemma reachable_invariant (allowed : op → bool) (I : World → Prop) :
  (∀ x, I (init x)) →
  (∀ o w w', allowed o = true → I w → exec o w = Some w' → I w') →
  ∀ w, reachable allowed w → I w.
Proof.
  intros Hinit Hstep w (x & os & Hall & Hrun).
  specialize (Hinit x). revert Hinit Hall Hrun.
  generalize (init x). induction os as [|o os IH]; intros w0 H0 Hall Hrun.
  - simpl in Hrun. by injection Hrun as <-.
  - simpl in Hall, Hrun. apply andb_prop in Hall as [Ho Hos].
    destruct (exec o w0) as [w1|] eqn:He; [|done].
    eapply (IH w1); eauto.
Qed.

(** A call of [acquireLock], whatever the world. *)
Lemma acquireLock_cases w :
  (isLeader w = true ∧ acquireLock w = (Ok true, w)) ∨
  (isLeader w = false ∧
   ∃ u x, lockfile_lock LOCK_FILE (ext w) = (Ok u, x) ∧
     acquireLock w =
       (Ok true,
        mkWorld true None (heldCodebaseLocks w)
          (match lockInterval w with
           | Some t =>
               List.filter (λ i, negb (Nat.eqb (fst i) t)) (intervals w)
           | None => intervals w
           end)
          (nextTimeout w) x
          (calls w ++ [CallLock LOCK_FILE (Ok u);
                       CallConsoleLog
                         "Acquired leader lock. This process is now the leader."]
                   ++ match lockInterval w with
                      | Some t => [CallClearInterval t]
                      | None => []
                      end))) ∨
  (isLeader w = false ∧
   ∃ e x, lockfile_lock LOCK_FILE (ext w) = (Throw e, x) ∧
     acquireLock w =
       (Ok false,
        let said :=
          calls w ++ [CallLock LOCK_FILE (Throw e);
                      CallConsoleLog
                        "Could not acquire leader lock, running as follower."] in
        match lockInterval w with
        | Some t =>
            mkWorld false (Some t) (heldCodebaseLocks w) (intervals w)
              (nextTimeout w) x said
        | None =>
            mkWorld false (Some (nextTimeout w)) (heldCodebaseLocks w)
              (intervals w ++ [(nextTimeout w, (CbAcquireLock, 5000%Z))])
              (S (nextTimeout w)) x
              (said ++ [CallSetInterval CbAcquireLock 5000 (nextTimeout w)])
        end)).
Proof.
  destruct (isLeader w) eqn:Hl.
  - left. split; [done|]. by apply acquireLock_leader.
  - right. destruct (lockfile_lock LOCK_FILE (ext w)) as [[u|e] x] eqn:Hx.
    + left. split; [done|]. exists u, x. split; [done|].
      by apply acquireLock_granted.
    + right. split; [done|]. exists e, x. split; [done|].
      by apply acquireLock_refused.
Qed.

(** A call of [releaseLock], whatever the world. *)
Lemma releaseLock_cases w :
  ∃ w', releaseLock w = (Ok tt, w') ∧
    heldCodebaseLocks w' = heldCodebaseLocks w ∧
    lockInterval w' = lockInterval w ∧
    intervals w' = intervals w ∧
    (isLeader w' = true → isLeader w = true) ∧
    ∃ l, calls w' = calls w ++ l ∧
         forallb is_release_call l = true ∧
         (isLeader w = false → l = []) ∧
         (isLeader w = true →
          ∃ res, l = [CallUnlock LOCK_FILE res;
                      match res with
                      | Ok _ => CallConsoleLog "Released leader lock."
                      | Throw e =>
                          CallConsoleError "Error releasing leader lock:" e
                      end]).
Proof.
  destruct (isLeader w) eqn:Hl.
  - destruct (lockfile_unlock LOCK_FILE (ext w)) as [[u|e] x] eqn:Hx.
    + eexists. split; [by apply releaseLock_released|]. simpl.
      split_and!; try done.
      eexists. split_and!; try done. intros _. by exists (Ok u).
    + eexists. split; [by apply releaseLock_failed|]. simpl.
      split_and!; try done.
      eexists. split_and!; try done. intros _. by exists (Throw e).
  - exists w. split; [by apply releaseLock_follower|].
    split_and!; try done; try congruence.
    exists []. rewrite app_nil_r. by split_and!.
Qed.

(** A call of [acquireCodebaseLock] never throws, leaves the leader slot
    alone, and changes the map by at most the entry it computes. *)
Lemma acquireCodebaseLock_cases w r :
  ∃ b w', acquireCodebaseLock r w = (Ok b, w') ∧
    same_leader_slot w w' ∧
    (heldCodebaseLocks w' = heldCodebaseLocks w ∨
     heldCodebaseLocks w' =
       <[r := getCodebaseLockPath r]> (heldCodebaseLocks w)).
Proof.
  destruct (has r (heldCodebaseLocks w)) eqn:Hh.
  - exists true, w. split; [by apply acquireCodebaseLock_held|].
    split; [done|by left].
  - destruct (lockfile_lock (getCodebaseLockPath r) (ext w))
      as [[u|e] x] eqn:Hx.
    + do 2 eexists. split; [by eapply acquireCodebaseLock_granted|].
      split; [done|by right].
    + do 2 eexists. split; [by eapply acquireCodebaseLock_refused|].
      split; [done|by left].
Qed.

(** A call of [releaseCodebaseLock] never throws, leaves the leader slot
    alone, and changes the map by at most the removal of its key; it
    makes an [unlock] call on the stored path when there is one. *)
Lemma releaseCodebaseLock_cases w r :
  ∃ w', releaseCodebaseLock r w = (Ok tt, w') ∧
    same_leader_slot w w' ∧
    (heldCodebaseLocks w' = heldCodebaseLocks w ∨
     heldCodebaseLocks w' = delete r (heldCodebaseLocks w)) ∧
    ∃ l, calls w' = calls w ++ l ∧
         forallb is_release_call l = true ∧
         (∀ p, heldCodebaseLocks w !! r = Some p → p ≠ "" →
               ∃ res, CallUnlock p res ∈ l).
Proof.
  destruct (falsy (heldCodebaseLocks w !! r)) eqn:Hf.
  - exists w. split; [by apply releaseCodebaseLock_not_held|].
    split; [done|]. split; [by left|].
    exists []. rewrite app_nil_r. split_and!; try done.
    intros p Hp Hne. rewrite Hp in Hf. simpl in Hf.
    by rewrite is_empty_false in Hf.
  - destruct (heldCodebaseLocks w !! r) as [p|] eqn:Hp; [|done].
    simpl in Hf.
    destruct (lockfile_unlock p (ext w)) as [[u|e] x] eqn:Hx.
    + eexists. split; [by eapply releaseCodebaseLock_released|].
      split; [done|]. split; [by right|]. simpl.
      eexists. split_and!; try done.
      intros p' [= <-] _. exists (Ok u). apply elem_of_cons. by left.
    + eexists. split; [by eapply releaseCodebaseLock_failed|].
      split; [done|]. split; [by left|]. simpl.
      eexists. split_and!; try done.
      intros p' [= <-] _. exists (Throw e). apply elem_of_cons. by left.
Qed.

(** A call of [isCodebaseLocked] never throws and changes nothing the
    module owns. *)
Lemma isCodebaseLocked_cases w r :
  ∃ b w', isCodebaseLocked r w = (Ok b, w') ∧
    same_leader_slot w w' ∧
    heldCodebaseLocks w' = heldCodebaseLocks w.
Proof.
  destruct (fs_existsSync (getCodebaseLockPath r +:+ ".lock") (ext w))
    eqn:He.
  - destruct (lockfile_checkSync (getCodebaseLockPath r) (ext w))
      as [[b|e] x] eqn:Hx.
    + do 2 eexists. by split; [by eapply isCodebaseLocked_checked|].
    + do 2 eexists. by split; [by eapply isCodebaseLocked_check_threw|].
  - do 2 eexists. by split; [by eapply isCodebaseLocked_absent|].
Qed.

Lemma same_leader_slot_refl w : same_leader_slot w w.
Proof. by repeat split. Qed.

Lemma same_leader_slot_trans w1 w2 w3 :
  same_leader_slot w1 w2 → same_leader_slot w2 w3 → same_leader_slot w1 w3.
Proof.
  intros (? & ? & ? & ?) (? & ? & ? & ?). repeat split; congruence.
Qed.

(** The loop of [releaseAllCodebaseLocks] over keys that are all
    different: every call returns, an entry is only ever removed, and
    every key of the list that is held gets its [unlock] call. *)
Lemma for_each_release (ks : list string) w :
  NoDup ks →
  ∃ w', for_each ks releaseCodebaseLock w = (Ok tt, w') ∧
    same_leader_slot w w' ∧
    (∀ k v, heldCodebaseLocks w' !! k = Some v →
            heldCodebaseLocks w !! k = Some v) ∧
    (∀ k, k ∉ ks → heldCodebaseLocks w' !! k = heldCodebaseLocks w !! k) ∧
    ∃ l, calls w' = calls w ++ l ∧
         forallb is_release_call l = true ∧
         (∀ k p, k ∈ ks → heldCodebaseLocks w !! k = Some p → p ≠ "" →
                 ∃ res, CallUnlock p res ∈ l).
Proof.
  intros Hnd. revert w. induction Hnd as [|k ks Hk Hnd IH]; intros w.
  - exists w. split; [done|]. split; [apply same_leader_slot_refl|].
    split; [done|]. split; [done|].
    exists []. rewrite app_nil_r. split_and!; try done.
    intros k p Hin. by apply elem_of_nil in Hin.
  - destruct (releaseCodebaseLock_cases w k)
      as (w1 & Hr & Hs1 & Hm1 & l1 & Hc1 & Hf1 & Hu1).
    destruct (IH w1) as (w' & Hrest & Hs2 & Hsub & Hout & l2 & Hc2 & Hf2 & Hu2).
    assert (∀ k0, k0 ≠ k →
              heldCodebaseLocks w1 !! k0 = heldCodebaseLocks w !! k0) as Hne.
    { intros k0 Hk0. destruct Hm1 as [->| ->]; [done|].
      by apply lookup_delete_ne. }
    assert (∀ k0 v, heldCodebaseLocks w1 !! k0 = Some v →
              heldCodebaseLocks w !! k0 = Some v) as Hsub1.
    { intros k0 v. destruct Hm1 as [->| ->]; [done|].
      rewrite lookup_delete_Some. by intros [_ ?]. }
    exists w'. split.
    { simpl. unfold bind at 1. by rewrite Hr. }
    split; [by eapply same_leader_slot_trans|].
    split; [by eauto|].
    split.
    { intros k0 Hk0. apply not_elem_of_cons in Hk0 as [Hk0 Hk0'].
      rewrite Hout by done. by apply Hne. }
    exists (l1 ++ l2). split; [by rewrite Hc2, Hc1, app_assoc|].
    split; [rewrite forallb_app; by rewrite Hf1, Hf2|].
    intros k0 p Hin Hp Hpne. apply elem_of_cons in Hin as [->|Hin].
    + destruct (Hu1 p Hp Hpne) as [res Hres]. exists res.
      apply elem_of_app. by left.
    + assert (k0 ≠ k) as Hk0 by (by intros ->).
      rewrite <- Hne in Hp by done.
      destruct (Hu2 k0 p Hin Hp Hpne) as [res Hres]. exists res.
      apply elem_of_app. by right.
Qed.

(** A call of [releaseAllCodebaseLocks] never throws, leaves the leader
    slot alone, only removes entries, and makes an [unlock] call for
    every lock held when it starts. *)
Lemma releaseAllCodebaseLocks_cases w :
  ∃ w', releaseAllCodebaseLocks w = (Ok tt, w') ∧
    same_leader_slot w w' ∧
    (∀ k v, heldCodebaseLocks w' !! k = Some v →
            heldCodebaseLocks w !! k = Some v) ∧
    ∃ l, calls w' = calls w ++ l ∧
         forallb is_release_call l = true ∧
         (∀ k p, heldCodebaseLocks w !! k = Some p → p ≠ "" →
                 ∃ res, CallUnlock p res ∈ l).
Proof.
  destruct (for_each_release (keys (heldCodebaseLocks w)) w)
    as (w' & Hr & Hs & Hsub & _ & l & Hc & Hf & Hu).
  { apply NoDup_fst_map_to_list. }
  exists w'. split; [exact Hr|]. split; [done|]. split; [done|].
  exists l. split_and!; try done.
  intros k p Hp Hne. apply (Hu k p); try done.
  unfold keys. apply list_elem_of_fmap. exists (k, p).
  split; [done|]. by apply elem_of_map_to_list.
Qed.

(** An interval that fires runs [acquireLock]. *)
Lemma fire_acquireLock t w w' :
  fire t w = Some w' → w' = snd (acquireLock w).
Proof.
  unfold fire. destruct (List.find _ _) as [[t' [[] ms]]|]; [|done].
  intros [= <-]. unfold run_callback, bind, ret.
  destruct (acquireLock_cases w) as [[_ ->]|[(_ & ? & ? & _ & ->)|(_ & ? & ? & _ & ->)]];
    reflexivity.
Qed.

Lemma one_timer_acquireLock w :
  one_timer w → one_timer (snd (acquireLock w)).
Proof.
  unfold one_timer. intros Hw.
  destruct (acquireLock_cases w)
    as [[_ ->]|[(_ & u & x & _ & ->)|(_ & e & x & _ & ->)]]; simpl.
  - done.
  - destruct (lockInterval w) as [t|]; [|done].
    rewrite Hw. simpl. by rewrite Nat.eqb_refl.
  - destruct (lockInterval w) as [t|]; simpl; [done|]. by rewrite Hw.
Qed.

Lemma one_timer_same w w' :
  same_leader_slot w w' → one_timer w → one_timer w'.
Proof. unfold one_timer. intros (_ & -> & -> & _). done. Qed.

Lemma one_timer_exec o w w' :
  one_timer w → exec o w = Some w' → one_timer w'.
Proof.
  intros Hw. destruct o as [| |t|r|r| |r|x]; simpl.
  - intros [= <-]. by apply one_timer_acquireLock.
  - intros [= <-]. destruct (releaseLock_cases w) as (w' & -> & _ & Hi & Ht & _).
    unfold one_timer. simpl. by rewrite Hi, Ht.
  - intros ->%fire_acquireLock. by apply one_timer_acquireLock.
  - intros [= <-]. destruct (acquireCodebaseLock_cases w r) as (b & w' & -> & Hs & _).
    by eapply one_timer_same.
  - intros [= <-]. destruct (releaseCodebaseLock_cases w r) as (w' & -> & Hs & _).
    by eapply one_timer_same.
  - intros [= <-]. destruct (releaseAllCodebaseLocks_cases w) as (w' & -> & Hs & _).
    by eapply one_timer_same.
  - intros [= <-]. destruct (isCodebaseLocked_cases w r) as (b & w' & -> & Hs & _).
    by eapply one_timer_same.
  - intros [= <-]. done.
Qed.

Lemma paths_computed_exec o w w' :
  paths_computed w → exec o w = Some w' → paths_computed w'.
Proof.
  unfold paths_computed. intros Hw. destruct o as [| |t|r|r| |r|x]; simpl.
  - intros [= <-].
    destruct (acquireLock_cases w)
      as [[_ ->]|[(_ & ? & ? & _ & ->)|(_ & ? & ? & _ & ->)]]; simpl; try done.
    by destruct (lockInterval w).
  - intros [= <-]. destruct (releaseLock_cases w) as (w' & -> & Hm & _).
    simpl. by rewrite Hm.
  - intros ->%fire_acquireLock.
    destruct (acquireLock_cases w)
      as [[_ ->]|[(_ & ? & ? & _ & ->)|(_ & ? & ? & _ & ->)]]; simpl; try done.
    by destruct (lockInterval w).
  - intros [= <-].
    destruct (acquireCodebaseLock_cases w r) as (b & w' & -> & _ & [Hm|Hm]);
      simpl; rewrite Hm; [done|].
    intros k v. rewrite lookup_insert_Some.
    intros [[<- <-]|[_ Hk]]; [done|by apply Hw].
  - intros [= <-].
    destruct (releaseCodebaseLock_cases w r) as (w' & -> & _ & [Hm|Hm] & _);
      simpl; rewrite Hm; [done|].
    intros k v. rewrite lookup_delete_Some. intros [_ Hk]. by apply Hw.
  - intros [= <-].
    destruct (releaseAllCodebaseLocks_cases w) as (w' & -> & _ & Hsub & _).
    simpl. intros k v Hk. apply Hw. by apply Hsub.
  - intros [= <-].
    destruct (isCodebaseLocked_cases w r) as (b & w' & -> & _ & Hm).
    simpl. by rewrite Hm.
  - intros [= <-]. done.
Qed.

(** *** The retry timer *)

(** C5.  When the process is not leader and the attempt on the leader
    lock is refused, [acquireLock] does not throw: it returns [false] and
    the leader flag is false.  When no retry timer was set it sets one,
    an interval of 5000 ms that calls [acquireLock]; when one was set it
    sets none.  Either way Node holds at most one interval afterwards. *)
Theorem acquireLock_refused_retries w e x :
  reachable any_op w →
  isLeader w = false →
  lockfile_lock LOCK_FILE (ext w) = (Throw e, x) →
  ∃ w', acquireLock w = (Ok false, w') ∧
    isLeader w' = false ∧
    (lockInterval w = None →
     ∃ t, lockInterval w' = Some t ∧
          intervals w' = [(t, (CbAcquireLock, 5000%Z))] ∧
          calls w' =
            calls w ++ [CallLock LOCK_FILE (Throw e);
                        CallConsoleLog
                          "Could not acquire leader lock, running as follower.";
                        CallSetInterval CbAcquireLock 5000 t]) ∧
    (lockInterval w ≠ None →
     lockInterval w' = lockInterval w ∧
     intervals w' = intervals w ∧
     calls w' =
       calls w ++ [CallLock LOCK_FILE (Throw e);
                   CallConsoleLog
                     "Could not acquire leader lock, running as follower."]) ∧
    (List.length (intervals w') ≤ 1)%nat.
Proof.
  intros Hr Hl Hx.
  assert (one_timer w) as Hone.
  { clear Hl Hx. revert w Hr. apply reachable_invariant; [done|].
    intros o w w' _ Hw He. by eapply one_timer_exec. }
  eexists. split; [by apply acquireLock_refused|].
  unfold one_timer in Hone.
  destruct (lockInterval w) as [t|] eqn:Hi; simpl.
  - split_and!; try done. rewrite Hone. simpl. lia.
  - split_and!; try done.
    + intros _. exists (nextTimeout w). rewrite Hone, <- app_assoc. done.
    + rewrite Hone. simpl. lia.
Qed.

(** *** The map of held locks *)

(** C10.  In every state reachable by resource-lock operations from the
    state at load, every entry of the map of held locks stores the lock
    path that [getCodebaseLockPath] computes from its key. *)
Theorem heldCodebaseLocks_stores_computed_path w k v :
  reachable resource_op w →
  heldCodebaseLocks w !! k = Some v →
  v = getCodebaseLockPath k.
Proof.
  intros Hr. revert k v. change (paths_computed w).
  revert w Hr. apply reachable_invariant.
  - intros x k v. simpl. by rewrite lookup_empty.
  - intros o w w' _ Hw He. by eapply paths_computed_exec.
Qed.

(** *** The lock path of a codebase *)

Lemma hex_digit_is_hex (n : Z) : MD5.is_hex_digit (MD5.hex_digit n) = true.
Proof.
  destruct n as [|p|p]; try reflexivity.
  do 4 (destruct p as [p|p|]; try reflexivity).
Qed.

Lemma hex_all_hex (bs : list Z) : MD5.all_hex (MD5.hex bs) = true.
Proof.
  induction bs as [|b bs IH]; [done|].
  cbn [MD5.hex MD5.all_hex]. by rewrite !hex_digit_is_hex, IH.
Qed.

Lemma hex_length (bs : list Z) :
  String.length (MD5.hex bs) = (2 * List.length bs)%nat.
Proof.
  induction bs as [|b bs IH]; [done|].
  cbn [MD5.hex String.length List.length]. rewrite IH. lia.
Qed.

Lemma le_bytes_length (n : nat) (x : Z) :
  List.length (MD5.le_bytes n x) = n.
Proof. unfold MD5.le_bytes. by rewrite List.length_map, List.length_seq. Qed.

Lemma md5_hex_length (s : string) : String.length (MD5.md5_hex s) = 32%nat.
Proof.
  unfold MD5.md5_hex, MD5.digest_bytes.
  rewrite hex_length, !List.length_app, !le_bytes_length. reflexivity.
Qed.

Lemma md5_hex_all_hex (s : string) : MD5.all_hex (MD5.md5_hex s) = true.
Proof. apply hex_all_hex. Qed.

(** C6.  [getCodebaseLockPath] is a function of its argument and of the
    platform alone.  Two identifiers that [path.resolve] sends to the
    same path get the same lock path, and the lock path is the locks
    directory joined with a name of 32 characters, all of them
    lower-case hexadecimal digits: the MD5 digest of the resolved
    path. *)
Theorem getCodebaseLockPath_same_for_same_path r1 r2 :
  path_resolve r1 = path_resolve r2 →
  getCodebaseLockPath r1 = getCodebaseLockPath r2 ∧
  ∃ name,
    getCodebaseLockPath r1 = path_join LOCKS_DIR name ∧
    name = MD5.md5_hex (path_resolve r1) ∧
    String.length name = 32%nat ∧
    MD5.all_hex name = true.
Proof.
  intros Hn. split.
  - unfold getCodebaseLockPath. by rewrite Hn.
  - exists (MD5.md5_hex (path_resolve r1)).
    split; [reflexivity|]. split; [reflexivity|].
    split; [apply md5_hex_length|apply md5_hex_all_hex].
Qed.

(** *** The query *)

(** What [isCodebaseLocked] returns: it never throws and leaves the
    leader slot and the map of held locks alone.  Without a lock
    directory on disk it returns [false] after the one call of
    [existsSync]; with one, it returns [false] when [checkSync] throws
    and [true] when [checkSync] returns, whatever boolean it returns. *)
Lemma isCodebaseLocked_returns w r :
  let lockPath := getCodebaseLockPath r in
  ∃ b w', isCodebaseLocked r w = (Ok b, w') ∧
    same_leader_slot w w' ∧
    heldCodebaseLocks w' = heldCodebaseLocks w ∧
    if fs_existsSync (lockPath +:+ ".lock") (ext w) then
      match lockfile_checkSync lockPath (ext w) with
      | (Ok held, _) =>
          b = true ∧
          calls w' = calls w ++ [CallExistsSync (lockPath +:+ ".lock") true;
                                 CallCheckSync lockPath (Ok held)]
      | (Throw e, _) =>
          b = false ∧
          calls w' = calls w ++ [CallExistsSync (lockPath +:+ ".lock") true;
                                 CallCheckSync lockPath (Throw e)]
      end
    else
      b = false ∧ ext w' = ext w ∧
      calls w' = calls w ++ [CallExistsSync (lockPath +:+ ".lock") false].
Proof.
  intros lockPath. subst lockPath.
  destruct (fs_existsSync (getCodebaseLockPath r +:+ ".lock") (ext w))
    eqn:He.
  - destruct (lockfile_checkSync (getCodebaseLockPath r) (ext w))
      as [[b|e] x] eqn:Hx.
    + do 2 eexists. by split; [by eapply isCodebaseLocked_checked|].
    + do 2 eexists. by split; [by eapply isCodebaseLocked_check_threw|].
  - do 2 eexists. by split; [by eapply isCodebaseLocked_absent|].
Qed.

(** *** Shutdown *)

(** The listeners of [SIGINT] and [SIGTERM] first make the calls of
    [releaseAllCodebaseLocks], among them an [unlock] call for every
    lock held, then the calls of [releaseLock] (the [unlock] call on the
    leader lock when the process is leader, nothing otherwise), and
    last [process.exit()].  They do not throw. *)
Theorem signal_handlers_release_codebase_locks_first w :
  ∃ (released : list call) (leader : list call) (w' : World),
    forallb is_release_call released = true ∧
    (∀ k p, heldCodebaseLocks w !! k = Some p → p ≠ "" →
            ∃ res, CallUnlock p res ∈ released) ∧
    (isLeader w = false → leader = []) ∧
    (isLeader w = true →
     ∃ res, leader = [CallUnlock LOCK_FILE res;
                      match res with
                      | Ok _ => CallConsoleLog "Released leader lock."
                      | Throw e =>
                          CallConsoleError "Error releasing leader lock:" e
                      end]) ∧
    on_SIGINT w = (Ok tt, w') ∧
    on_SIGTERM w = (Ok tt, w') ∧
    calls w' = calls w ++ released ++ leader ++ [CallProcessExit].
Proof.
  destruct (releaseAllCodebaseLocks_cases w)
    as (w1 & Hall & (Hl1 & _) & _ & l1 & Hc1 & Hf1 & Hu1).
  destruct (releaseLock_cases w1)
    as (w2 & Hrel & _ & _ & _ & _ & l2 & Hc2 & _ & Hfol & Hlead).
  rewrite Hl1 in Hfol, Hlead.
  exists l1, l2, (record CallProcessExit w2). split_and!; try done.
  - unfold on_SIGINT, process_exit, modify, bind. by rewrite Hall, Hrel.
  - unfold on_SIGTERM, process_exit, modify, bind. by rewrite Hall, Hrel.
  - simpl. by rewrite Hc2, Hc1, <- !app_assoc.
Qed.

End Properties.

(** ** The theorems on the platform of the examples *)

Section OnSim.

#[local] Existing Instance Sim.platform.

Import Scenario.

(** C1, as stated, fails.  The process is leader, the lock directory was
    removed from outside, [unlock] throws, and the leader flag is still
    true when [releaseLock] returns. *)
Lemma releaseLock_keeps_leader_on_failure :
  ¬ (isLeader leader_compromised = true →
     isLeader (snd (releaseLock leader_compromised)) = false).
Proof. intros H. specialize (H eq_refl). vm_compute in H. discriminate H. Qed.

Lemma releaseLock_while_leader_witness :
  isLeader leader = true ∧
  ∃ w', releaseLock leader = (Ok tt, w') ∧ isLeader w' = false.
Proof.
  split; [reflexivity|].
  assert (lockfile_unlock LOCK_FILE (ext leader)
          = (Ok tt, Sim.free : @Ext Sim.platform)) as Hu
    by (vm_compute; reflexivity).
  destruct (releaseLock_while_leader leader eq_refl) as (w' & Hr & Hm).
  rewrite Hu in Hm.
  exists w'. split; [exact Hr | exact (proj1 Hm)].
Defined.

(** C2, as stated, fails.  The process holds the lock of [repo], the
    lock directory was removed from outside, [unlock] throws, and [repo]
    is still in the map when [releaseCodebaseLock] returns. *)
Lemma releaseCodebaseLock_keeps_entry_on_failure :
  ¬ (is_Some (heldCodebaseLocks holding_compromised !! repo) →
     heldCodebaseLocks (snd (releaseCodebaseLock repo holding_compromised))
       !! repo = None).
Proof.
  intros H. assert (is_Some (heldCodebaseLocks holding_compromised !! repo))
    as Hheld by (vm_compute; eauto).
  specialize (H Hheld). vm_compute in H. discriminate H.
Qed.

Lemma releaseCodebaseLock_while_held_witness :
  heldCodebaseLocks holding !! repo = Some (getCodebaseLockPath repo) ∧
  getCodebaseLockPath repo ≠ "" ∧
  ∃ w', releaseCodebaseLock repo holding = (Ok tt, w') ∧
        heldCodebaseLocks w' !! repo = None.
Proof.
  assert (heldCodebaseLocks holding !! repo = Some (getCodebaseLockPath repo))
    as Hheld by (vm_compute; reflexivity).
  assert (getCodebaseLockPath repo ≠ "") as Hne
    by (vm_compute; discriminate).
  assert (lockfile_unlock (getCodebaseLockPath repo) (ext holding)
          = (Ok tt, Sim.free : @Ext Sim.platform)) as Hu
    by (vm_compute; reflexivity).
  split; [exact Hheld|]. split; [exact Hne|].
  destruct (releaseCodebaseLock_while_held holding repo
              (getCodebaseLockPath repo) Hheld Hne) as (w' & Hr & Hm).
  rewrite Hu in Hm.
  exists w'. split; [exact Hr | exact (proj1 Hm)].
Defined.

(** C3, as stated, fails.  The process lost the election once, won it on
    the retry and gave leadership up: the leader flag is false, an
    attempt has failed, and there is no retry timer. *)
Lemma no_retry_timer_after_release :
  reachable leader_op retired ∧
  ¬ (lockInterval retired ≠ None ↔
     isLeader retired = false ∧ some_attempt_failed retired = true).
Proof.
  split.
  - exists contended, retirement. split; vm_compute; reflexivity.
  - intros [_ H].
    assert (isLeader retired = false ∧ some_attempt_failed retired = true)
      as Hf by (split; vm_compute; reflexivity).
    apply H in Hf. apply Hf. vm_compute. reflexivity.
Qed.

Lemma acquireLock_already_leader_witness :
  isLeader leader = true ∧ acquireLock leader = (Ok true, leader).
Proof.
  split; [reflexivity|]. apply acquireLock_already_leader. reflexivity.
Defined.

Lemma acquireLock_refused_retries_witness :
  reachable any_op newcomer ∧
  isLeader newcomer = false ∧
  lockfile_lock LOCK_FILE (ext newcomer)
    = (Throw "Lock file is already being held", ext newcomer) ∧
  ∃ w', acquireLock newcomer = (Ok false, w') ∧
        isLeader w' = false ∧
        ∃ t, lockInterval w' = Some t ∧
             intervals w' = [(t, (CbAcquireLock, 5000%Z))].
Proof.
  assert (reachable any_op newcomer) as Hr.
  { exists contended, []. split; reflexivity. }
  assert (lockfile_lock LOCK_FILE (ext newcomer)
          = (Throw "Lock file is already being held", ext newcomer)) as Hx
    by (vm_compute; reflexivity).
  split; [exact Hr|]. split; [reflexivity|]. split; [exact Hx|].
  destruct (acquireLock_refused_retries newcomer _ _ Hr eq_refl Hx)
    as (w' & Ha & Hl & Hnone & _).
  destruct (Hnone eq_refl) as (t & Ht & Hi & _).
  exists w'. split; [exact Ha|]. split; [exact Hl|].
  exists t. split; [exact Ht | exact Hi].
Defined.

Lemma getCodebaseLockPath_same_for_same_path_witness :
  path_resolve "../repo" = path_resolve "/home/u/repo/" ∧
  getCodebaseLockPath "../repo" = getCodebaseLockPath "/home/u/repo/".
Proof.
  assert (path_resolve "../repo" = path_resolve "/home/u/repo/") as Hn
    by (vm_compute; reflexivity).
  split; [exact Hn|].
  exact (proj1 (getCodebaseLockPath_same_for_same_path _ _ Hn)).
Defined.

Lemma acquireCodebaseLock_idempotent_witness :
  (∃ x, lockfile_lock (getCodebaseLockPath repo) (ext (init Sim.free))
        = (Ok tt, x)) ∧
  ∃ w1, acquireCodebaseLock repo (init Sim.free) = (Ok true, w1) ∧
        acquireCodebaseLock repo w1 = (Ok true, w1) ∧
        ∃ v, held_entries repo w1 = [(repo, v)].
Proof.
  assert (∃ x, lockfile_lock (getCodebaseLockPath repo) (ext (init Sim.free))
               = (Ok tt, x)) as Hx
    by (eexists; vm_compute; reflexivity).
  split; [exact Hx|].
  exact (proj2 (acquireCodebaseLock_idempotent (init Sim.free) repo)
               (or_intror Hx)).
Defined.

(** C8 fails on the code.  A process died holding the lock of [repo]:
    the lock directory is on disk, [checkSync] returns [false] for it
    without throwing, and [isCodebaseLocked] returns [true]. *)
Theorem isCodebaseLocked_true_for_stale_lock :
  fs_existsSync (getCodebaseLockPath repo +:+ ".lock") (ext orphaned) = true ∧
  fst (lockfile_checkSync (getCodebaseLockPath repo) (ext orphaned))
    = Ok false ∧
  fst (isCodebaseLocked repo orphaned) = Ok true.
Proof. split_and!; vm_compute; reflexivity. Qed.

Lemma signal_handlers_release_codebase_locks_first_witness :
  ∃ (released leader : list call) (w' : World),
    on_SIGTERM busy = (Ok tt, w') ∧
    calls w' = calls busy ++ released ++ leader ++ [CallProcessExit] ∧
    (∃ res, CallUnlock (getCodebaseLockPath repo) res ∈ released) ∧
    (∃ res, CallUnlock (getCodebaseLockPath "/srv/data") res ∈ released) ∧
    ∃ res, leader = [CallUnlock LOCK_FILE res;
                     match res with
                     | Ok _ => CallConsoleLog "Released leader lock."
                     | Throw e =>
                         CallConsoleError "Error releasing leader lock:" e
                     end].
Proof.
  assert (heldCodebaseLocks busy !! repo = Some (getCodebaseLockPath repo))
    as Hrepo by (vm_compute; reflexivity).
  assert (heldCodebaseLocks busy !! "/srv/data"
          = Some (getCodebaseLockPath "/srv/data"))
    as Hdata by (vm_compute; reflexivity).
  assert (getCodebaseLockPath repo ≠ "") as Hne1
    by (vm_compute; discriminate).
  assert (getCodebaseLockPath "/srv/data" ≠ "") as Hne2
    by (vm_compute; discriminate).
  assert (isLeader busy = true) as Hl by (vm_compute; reflexivity).
  destruct (signal_handlers_release_codebase_locks_first busy)
    as (released & leader & w' & _ & Hu & _ & Hlead & _ & Hterm & Hc).
  exists released, leader, w'.
  split; [exact Hterm|]. split; [exact Hc|].
  split; [exact (Hu _ _ Hrepo Hne1)|].
  split; [exact (Hu _ _ Hdata Hne2)|].
  exact (Hlead Hl).
Defined.

Lemma heldCodebaseLocks_stores_computed_path_witness :
  reachable resource_op holding ∧
  heldCodebaseLocks holding !! repo
    = Some "/home/u/.context/locks/2bcea0c275935c2226d0cbb7cb1b7311" ∧
  "/home/u/.context/locks/2bcea0c275935c2226d0cbb7cb1b7311"
    = getCodebaseLockPath repo.
Proof.
  assert (reachable resource_op holding) as Hr.
  { exists Sim.free, [OpAcquireCodebaseLock repo].
    split; vm_compute; reflexivity. }
  assert (heldCodebaseLocks holding !! repo
          = Some "/home/u/.context/locks/2bcea0c275935c2226d0cbb7cb1b7311")
    as Hh by (vm_compute; reflexivity).
  split; [exact Hr|]. split; [exact Hh|].
  exact (heldCodebaseLocks_stores_computed_path holding repo _ Hr Hh).
Defined.

End OnSim.

(** ** Further properties of the module *)

Section MoreProperties.

Context {P : Platform}.

Implicit Types (w : World) (r : string).

Lemma reachable_one_timer w : reachable any_op w → one_timer w.
Proof.
  revert w. apply reachable_invariant; [done|].
  intros o w w' _ Hw He. by eapply one_timer_exec.
Qed.

Lemma reachable_paths_computed w : reachable any_op w → paths_computed w.
Proof.
  revert w. apply reachable_invariant.
  - intros x k v. simpl. by rewrite lookup_empty.
  - intros o w w' _ Hw He. by eapply paths_computed_exec.
Qed.

Lemma leader_without_timer_acquireLock w :
  (isLeader w = true → lockInterval w = None) →
  isLeader (snd (acquireLock w)) = true →
  lockInterval (snd (acquireLock w)) = None.
Proof.
  intros Hw.
  destruct (acquireLock_cases w)
    as [[Hl ->]|[(_ & u & x & _ & ->)|(_ & e & x & _ & ->)]]; simpl.
  - intros _. by apply Hw.
  - done.
  - by destruct (lockInterval w).
Qed.

Lemma reachable_leader_without_timer w :
  reachable any_op w → isLeader w = true → lockInterval w = None.
Proof.
  revert w.
  apply (reachable_invariant any_op
           (λ w, isLeader w = true → lockInterval w = None)); [done|].
  intros o w w' _ Hw. destruct o as [| |t|r|r| |r|x]; simpl.
  - intros [= <-]. by apply leader_without_timer_acquireLock.
  - intros [= <-].
    destruct (releaseLock_cases w) as (w' & -> & _ & Hi & _ & Hl & _).
    simpl. rewrite Hi. intros H. apply Hw. by apply Hl.
  - intros ->%fire_acquireLock. by apply leader_without_timer_acquireLock.
  - intros [= <-].
    destruct (acquireCodebaseLock_cases w r) as (b & w' & -> & (Hl & Hi & _) & _).
    simpl. by rewrite Hl, Hi.
  - intros [= <-].
    destruct (releaseCodebaseLock_cases w r) as (w' & -> & (Hl & Hi & _) & _).
    simpl. by rewrite Hl, Hi.
  - intros [= <-].
    destruct (releaseAllCodebaseLocks_cases w) as (w' & -> & (Hl & Hi & _) & _).
    simpl. by rewrite Hl, Hi.
  - intros [= <-].
    destruct (isCodebaseLocked_cases w r) as (b & w' & -> & (Hl & Hi & _) & _).
    simpl. by rewrite Hl, Hi.
  - intros [= <-]. done.
Qed.

Lemma acquireLock_keeps_held_locks w :
  heldCodebaseLocks (snd (acquireLock w)) = heldCodebaseLocks w.
Proof.
  destruct (acquireLock_cases w)
    as [[Hl ->]|[(_ & u & x & _ & ->)|(_ & e & x & _ & ->)]]; simpl;
    try done.
  by destruct (lockInterval w).
Qed.

(** *** The leader lock *)

(** [acquireLock] never throws, and what it returns is the leader flag
    it leaves: [true] exactly when the process is leader afterwards.  It
    leaves the map of held codebase locks alone. *)
Theorem acquireLock_returns_leader_flag w :
  ∃ b w', acquireLock w = (Ok b, w') ∧
    isLeader w' = b ∧
    heldCodebaseLocks w' = heldCodebaseLocks w.
Proof.
  destruct (acquireLock_cases w)
    as [[Hl ->]|[(_ & u & x & _ & ->)|(_ & e & x & _ & ->)]].
  - by exists true, w.
  - by do 2 eexists.
  - do 2 eexists. split; [done|]. by destruct (lockInterval w).
Qed.

(** When the process is not leader and [proper-lockfile] grants the
    leader lock, [acquireLock] returns [true], sets the leader flag and
    leaves no retry timer: it calls [clearInterval] on the handle when
    one was set, makes no timer call otherwise, and Node holds no
    interval afterwards. *)
Theorem acquireLock_granted_clears_timer w u x :
  reachable any_op w →
  isLeader w = false →
  lockfile_lock LOCK_FILE (ext w) = (Ok u, x) →
  ∃ w', acquireLock w = (Ok true, w') ∧
    isLeader w' = true ∧
    lockInterval w' = None ∧
    intervals w' = [] ∧
    calls w' =
      calls w ++ [CallLock LOCK_FILE (Ok u);
                  CallConsoleLog
                    "Acquired leader lock. This process is now the leader."]
              ++ match lockInterval w with
                 | Some t => [CallClearInterval t]
                 | None => []
                 end.
Proof.
  intros Hr Hl Hx. pose proof (reachable_one_timer w Hr) as Hone.
  eexists. split; [by apply acquireLock_granted|]. simpl.
  split_and!; try done.
  unfold one_timer in Hone. rewrite Hone.
  destruct (lockInterval w) as [t|]; [|done].
  simpl. by rewrite Nat.eqb_refl.
Qed.

(** In every reachable state the only interval that can fire is the
    retry timer of the module: [fire t] does something exactly when
    [lockInterval] is the handle [t]. *)
Theorem interval_fires_iff_retry_timer w t :
  reachable any_op w →
  is_Some (fire t w) ↔ lockInterval w = Some t.
Proof.
  intros Hr. pose proof (reachable_one_timer w Hr) as Hone.
  unfold one_timer in Hone. unfold fire. rewrite Hone.
  destruct (lockInterval w) as [t0|]; simpl.
  - destruct (Nat.eqb_spec t0 t) as [->|Hne].
    + split; [done|]. intros _. by eexists.
    + split; [by intros [? ?]|]. intros [= ?]. done.
  - split; [by intros [? ?]|done].
Qed.

(** In every reachable state, whatever mix of leader-lock and
    codebase-lock operations led to it, a leader has no retry timer:
    [lockInterval] is unset and Node holds no interval. *)
Theorem leader_has_no_retry_timer w :
  reachable any_op w →
  isLeader w = true →
  lockInterval w = None ∧ intervals w = [].
Proof.
  intros Hr Hl. pose proof (reachable_one_timer w Hr) as Hone.
  pose proof (reachable_leader_without_timer w Hr Hl) as Hi.
  split; [done|]. unfold one_timer in Hone. by rewrite Hone, Hi.
Qed.

(** A leader that calls [releaseLock] does not start retrying: whether
    the release succeeds or fails, no retry timer is set afterwards and
    no interval can fire, so [acquireLock] runs again only when it is
    called. *)
Theorem releaseLock_schedules_no_retry w :
  reachable any_op w →
  isLeader w = true →
  ∃ w', releaseLock w = (Ok tt, w') ∧
    lockInterval w' = None ∧
    intervals w' = [] ∧
    ∀ t, fire t w' = None.
Proof.
  intros Hr Hl. pose proof (reachable_leader_without_timer w Hr Hl) as Hi.
  pose proof (reachable_one_timer w Hr) as Ht.
  unfold one_timer in Ht. rewrite Hi in Ht.
  destruct (releaseLock_cases w) as (w' & Hrel & _ & Hi' & Ht' & _).
  exists w'. split; [done|]. rewrite Hi', Ht'. split_and!; try done.
  intros t. unfold fire. by rewrite Ht', Ht.
Qed.

(** *** The codebase locks *)

(** [acquireCodebaseLock] never throws, and what it returns says whether
    the identifier is in the map afterwards.  It leaves the leader slot
    and the entries of every other identifier alone. *)
Theorem acquireCodebaseLock_returns_held w r :
  ∃ b w', acquireCodebaseLock r w = (Ok b, w') ∧
    has r (heldCodebaseLocks w') = b ∧
    same_leader_slot w w' ∧
    ∀ k, k ≠ r → heldCodebaseLocks w' !! k = heldCodebaseLocks w !! k.
Proof.
  destruct (has r (heldCodebaseLocks w)) eqn:Hh.
  - exists true, w. split; [by apply acquireCodebaseLock_held|].
    split; [done|]. split; [apply same_leader_slot_refl|done].
  - destruct (lockfile_lock (getCodebaseLockPath r) (ext w))
      as [[u|e] x] eqn:Hx.
    + do 2 eexists. split; [by eapply acquireCodebaseLock_granted|]. simpl.
      split; [|split; [done|]].
      * apply has_true. rewrite lookup_insert_eq. by eexists.
      * intros k Hk. by rewrite lookup_insert_ne.
    + do 2 eexists. split; [by eapply acquireCodebaseLock_refused|]. simpl.
      split; [done|]. split; done.
Qed.

(** [releaseCodebaseLock] never throws and touches nothing but the entry
    of its identifier; for an identifier that is not in the map it does
    nothing at all, not even a call. *)
Theorem releaseCodebaseLock_touches_only_its_key w r :
  ∃ w', releaseCodebaseLock r w = (Ok tt, w') ∧
    same_leader_slot w w' ∧
    (∀ k, k ≠ r → heldCodebaseLocks w' !! k = heldCodebaseLocks w !! k) ∧
    (heldCodebaseLocks w !! r = None → w' = w).
Proof.
  destruct (releaseCodebaseLock_cases w r) as (w' & Hr & Hs & Hm & _).
  exists w'. split; [done|]. split; [done|]. split.
  - intros k Hk. destruct Hm as [->| ->]; [done|].
    by apply lookup_delete_ne.
  - intros Hnone.
    rewrite releaseCodebaseLock_not_held in Hr by (by rewrite Hnone).
    by injection Hr.
Qed.

(** One release of a held lock: the [unlock] call, its answer, and the
    entry removed exactly when the answer is a success. *)
Lemma releaseCodebaseLock_outcome w r p :
  heldCodebaseLocks w !! r = Some p →
  p ≠ "" →
  ∃ w' res msg, releaseCodebaseLock r w = (Ok tt, w') ∧
    calls w' = calls w ++ [CallUnlock p res; msg] ∧
    heldCodebaseLocks w' =
      match res with
      | Ok _ => delete r (heldCodebaseLocks w)
      | Throw _ => heldCodebaseLocks w
      end.
Proof.
  intros Hp Hne. apply is_empty_false in Hne.
  destruct (lockfile_unlock p (ext w)) as [[u|e] x] eqn:Hx.
  - do 3 eexists. split; [by eapply releaseCodebaseLock_released|].
    simpl. split; [reflexivity|]. done.
  - do 3 eexists. split; [by eapply releaseCodebaseLock_failed|].
    simpl. split; [reflexivity|]. done.
Qed.

(** The loop of [releaseAllCodebaseLocks], with the fate of every key. *)
Lemma for_each_release_outcomes (ks : list string) w :
  NoDup ks →
  ∃ w' l, for_each ks releaseCodebaseLock w = (Ok tt, w') ∧
    calls w' = calls w ++ l ∧
    (∀ k, k ∉ ks → heldCodebaseLocks w' !! k = heldCodebaseLocks w !! k) ∧
    (∀ k p, k ∈ ks → heldCodebaseLocks w !! k = Some p → p ≠ "" →
       (heldCodebaseLocks w' !! k = None ∧ ∃ u, CallUnlock p (Ok u) ∈ l) ∨
       (heldCodebaseLocks w' !! k = Some p ∧
        ∃ e, CallUnlock p (Throw e) ∈ l)).
Proof.
  intros Hnd. revert w. induction Hnd as [|k ks Hk Hnd IH]; intros w.
  - exists w, []. rewrite app_nil_r. split_and!; try done.
    intros k p Hin. by apply elem_of_nil in Hin.
  - destruct (releaseCodebaseLock_cases w k)
      as (w1 & Hr & _ & Hm1 & l1 & Hc1 & _).
    destruct (IH w1) as (w' & l2 & Hrest & Hc2 & Hout & Hfate).
    assert (∀ k0, k0 ≠ k →
              heldCodebaseLocks w1 !! k0 = heldCodebaseLocks w !! k0) as Hne.
    { intros k0 Hk0. destruct Hm1 as [->| ->]; [done|].
      by apply lookup_delete_ne. }
    exists w', (l1 ++ l2). split.
    { simpl. unfold bind at 1. by rewrite Hr. }
    split; [by rewrite Hc2, Hc1, app_assoc|].
    split.
    { intros k0 Hk0. apply not_elem_of_cons in Hk0 as [Hk0 Hk0'].
      rewrite Hout by done. by apply Hne. }
    intros k0 p Hin Hp Hpne. apply elem_of_cons in Hin as [->|Hin].
    + destruct (releaseCodebaseLock_outcome w k p Hp Hpne)
        as (w1' & res & msg & Hr' & Hc' & Hm').
      rewrite Hr in Hr'. injection Hr' as <-.
      rewrite Hc1 in Hc'. apply app_inv_head in Hc'. subst l1.
      rewrite (Hout k Hk), Hm'. destruct res as [u|e].
      * left. rewrite lookup_delete_eq. split; [done|].
        exists u. apply elem_of_app. left. apply elem_of_cons. by left.
      * right. split; [done|].
        exists e. apply elem_of_app. left. apply elem_of_cons. by left.
    + assert (k0 ≠ k) as Hk0 by (by intros ->).
      rewrite <- Hne in Hp by done.
      destruct (Hfate k0 p Hin Hp Hpne) as [[Hgone [u Hu]]|[Hkept [e He]]].
      * left. split; [done|]. exists u. apply elem_of_app. by right.
      * right. split; [done|]. exists e. apply elem_of_app. by right.
Qed.

(** [releaseAllCodebaseLocks], with the fate of every held lock. *)
Lemma releaseAllCodebaseLocks_outcomes w :
  ∃ w' l, releaseAllCodebaseLocks w = (Ok tt, w') ∧
    calls w' = calls w ++ l ∧
    (∀ k, heldCodebaseLocks w !! k = None →
          heldCodebaseLocks w' !! k = None) ∧
    (∀ k p, heldCodebaseLocks w !! k = Some p → p ≠ "" →
       (heldCodebaseLocks w' !! k = None ∧ ∃ u, CallUnlock p (Ok u) ∈ l) ∨
       (heldCodebaseLocks w' !! k = Some p ∧
        ∃ e, CallUnlock p (Throw e) ∈ l)).
Proof.
  destruct (for_each_release_outcomes (keys (heldCodebaseLocks w)) w)
    as (w' & l & Hr & Hc & Hout & Hfate).
  { apply NoDup_fst_map_to_list. }
  assert (∀ k p, heldCodebaseLocks w !! k = Some p →
                 k ∈ keys (heldCodebaseLocks w)) as Hkeys.
  { intros k p Hp. unfold keys. apply list_elem_of_fmap. exists (k, p).
    split; [done|]. by apply elem_of_map_to_list. }
  exists w', l. split; [exact Hr|]. split; [done|]. split.
  - intros k Hnone. rewrite Hout; [done|].
    intros Hin. unfold keys in Hin. apply list_elem_of_fmap in Hin
      as ([k' p] & -> & Hin). apply elem_of_map_to_list in Hin.
    simpl in Hnone. congruence.
  - intros k p Hp Hne. apply Hfate; try done. by eapply Hkeys.
Qed.

(** [releaseAllCodebaseLocks] is a best effort on every held lock.  It
    never throws; each lock held when it starts (stored with a non-empty
    path) gets its [unlock] call, and is gone from the map afterwards
    when that call succeeded and still there when it threw, whatever
    happened to the others.  No entry is added. *)
Theorem releaseAllCodebaseLocks_best_effort w :
  ∃ w' l, releaseAllCodebaseLocks w = (Ok tt, w') ∧
    calls w' = calls w ++ l ∧
    (∀ k, heldCodebaseLocks w !! k = None →
          heldCodebaseLocks w' !! k = None) ∧
    (∀ k p, heldCodebaseLocks w !! k = Some p → p ≠ "" →
       (heldCodebaseLocks w' !! k = None ∧ ∃ u, CallUnlock p (Ok u) ∈ l) ∨
       (heldCodebaseLocks w' !! k = Some p ∧
        ∃ e, CallUnlock p (Throw e) ∈ l)).
Proof. apply releaseAllCodebaseLocks_outcomes. Qed.

(** Releasing a held lock and acquiring it again: when [proper-lockfile]
    accepts both calls, the second call returns [true] and the map has
    exactly one entry for the identifier, with the computed path; the
    entries of the other identifiers are as before. *)
Theorem release_then_reacquire w r p x1 x2 :
  heldCodebaseLocks w !! r = Some p →
  p ≠ "" →
  lockfile_unlock p (ext w) = (Ok tt, x1) →
  lockfile_lock (getCodebaseLockPath r) x1 = (Ok tt, x2) →
  ∃ w1 w2, releaseCodebaseLock r w = (Ok tt, w1) ∧
    acquireCodebaseLock r w1 = (Ok true, w2) ∧
    held_entries r w2 = [(r, getCodebaseLockPath r)] ∧
    ∀ k, k ≠ r → heldCodebaseLocks w2 !! k = heldCodebaseLocks w !! k.
Proof.
  intros Hp Hne Hu Hl. apply is_empty_false in Hne.
  eexists. eexists. split; [by eapply releaseCodebaseLock_released|].
  split.
  - eapply acquireCodebaseLock_granted; simpl; [|exact Hl].
    apply bool_decide_eq_false. rewrite lookup_delete_eq. by intros [? ?].
  - simpl. split.
    + apply held_entries_one. simpl. by rewrite lookup_insert_eq.
    + intros k Hk. by rewrite lookup_insert_ne, lookup_delete_ne.
Qed.

(** The map is keyed by the identifier as given, the lock file by the
    resolved path.  So in a reachable state where [r1] is held, a call
    for another identifier [r2] of the same resolved path is not
    answered from the map: it asks [proper-lockfile] for the very file
    held for [r1], and returns what that call says. *)
Theorem aliases_lock_the_same_file w r1 r2 p :
  reachable any_op w →
  heldCodebaseLocks w !! r1 = Some p →
  path_resolve r1 = path_resolve r2 →
  heldCodebaseLocks w !! r2 = None →
  ∃ b w' res msg, acquireCodebaseLock r2 w = (Ok b, w') ∧
    calls w' = calls w ++ [CallLock p res; msg] ∧
    b = match res with Ok _ => true | Throw _ => false end.
Proof.
  intros Hr Hp Hn Hnone.
  apply (reachable_paths_computed w Hr) in Hp. subst p.
  assert (getCodebaseLockPath r1 = getCodebaseLockPath r2) as ->
    by (unfold getCodebaseLockPath; by rewrite Hn).
  assert (has r2 (heldCodebaseLocks w) = false) as Hh.
  { apply bool_decide_eq_false. rewrite Hnone. by intros [? ?]. }
  destruct (lockfile_lock (getCodebaseLockPath r2) (ext w))
    as [[u|e] x] eqn:Hx.
  - exists true. do 3 eexists.
    split; [by eapply acquireCodebaseLock_granted|]. simpl.
    split; [reflexivity|]. done.
  - exists false. do 3 eexists.
    split; [by eapply acquireCodebaseLock_refused|]. simpl.
    split; [reflexivity|]. done.
Qed.

(** The two managers do not interfere: an operation on codebase locks,
    or the query, leaves the leader flag, the retry timer and Node's
    intervals as they were, and an operation on the leader lock leaves
    the map of held codebase locks as it was. *)
Theorem managers_do_not_interfere o w w' :
  exec o w = Some w' →
  (resource_op o = true ∨ (∃ r, o = OpIsCodebaseLocked r) →
   same_leader_slot w w') ∧
  (leader_op o = true → heldCodebaseLocks w' = heldCodebaseLocks w).
Proof.
  destruct o as [| |t|r|r| |r|x]; simpl.
  - intros [= <-]. split; [by intros [|[? ?]]|]. intros _.
    apply acquireLock_keeps_held_locks.
  - intros [= <-]. split; [by intros [|[? ?]]|]. intros _.
    destruct (releaseLock_cases w) as (w' & -> & Hm & _). done.
  - intros ->%fire_acquireLock. split; [by intros [|[? ?]]|]. intros _.
    apply acquireLock_keeps_held_locks.
  - intros [= <-]. split; [|done]. intros _.
    destruct (acquireCodebaseLock_cases w r) as (b & w' & -> & Hs & _). done.
  - intros [= <-]. split; [|done]. intros _.
    destruct (releaseCodebaseLock_cases w r) as (w' & -> & Hs & _). done.
  - intros [= <-]. split; [|done]. intros _.
    destruct (releaseAllCodebaseLocks_cases w) as (w' & -> & Hs & _). done.
  - intros [= <-]. split; [|done]. intros _.
    destruct (isCodebaseLocked_cases w r) as (b & w' & -> & Hs & _). done.
  - intros [= <-]. split; [|done]. intros _. by repeat split.
Qed.

(** *** Shutdown *)


(** *** Calls that overlap *)

Lemma acquireLock_start_leader w :
  isLeader w = true → acquireLock_start w = (Ok (Returned true), w).
Proof.
  intros H. unfold acquireLock_start. step_through. by rewrite H.
Qed.

Lemma acquireLock_start_follower w :
  isLeader w = false →
  acquireLock_start w =
    (Ok (Suspended (AwaitLock (fst (lockfile_lock LOCK_FILE (ext w))))),
     record (CallLock LOCK_FILE (fst (lockfile_lock LOCK_FILE (ext w))))
       (set_ext (snd (lockfile_lock LOCK_FILE (ext w))) w)).
Proof.
  intros H. unfold acquireLock_start, lock_promise. step_through.
  rewrite H. by destruct (lockfile_lock LOCK_FILE (ext w)).
Qed.

Lemma releaseLock_start_follower w :
  isLeader w = false → releaseLock_start w = (Ok (Returned tt), w).
Proof.
  intros H. unfold releaseLock_start. step_through. by rewrite H.
Qed.

Lemma releaseLock_start_leader w :
  isLeader w = true →
  releaseLock_start w =
    (Ok (Suspended (AwaitUnlock (fst (lockfile_unlock LOCK_FILE (ext w))))),
     record (CallUnlock LOCK_FILE (fst (lockfile_unlock LOCK_FILE (ext w))))
       (set_ext (snd (lockfile_unlock LOCK_FILE (ext w))) w)).
Proof.
  intros H. unfold releaseLock_start, unlock_promise. step_through.
  rewrite H. by destruct (lockfile_unlock LOCK_FILE (ext w)).
Qed.

Lemma acquireLock_resume_granted w u :
  acquireLock_resume (Ok u) w =
    (Ok true,
     mkWorld true None (heldCodebaseLocks w)
       (match lockInterval w with
        | Some t =>
            List.filter (λ i, negb (Nat.eqb (fst i) t)) (intervals w)
        | None => intervals w
        end)
       (nextTimeout w) (ext w)
       (calls w ++ [CallConsoleLog
                      "Acquired leader lock. This process is now the leader."]
                ++ match lockInterval w with
                   | Some t => [CallClearInterval t]
                   | None => []
                   end)).
Proof.
  unfold acquireLock_resume, settled. step_through.
  destruct (lockInterval w) eqn:Hi; world_eq; rewrite ?Hi; reflexivity.
Qed.

Lemma acquireLock_resume_refused w e :
  acquireLock_resume (Throw e) w =
    (Ok false,
     let said :=
       calls w ++ [CallConsoleLog
                     "Could not acquire leader lock, running as follower."] in
     match lockInterval w with
     | Some t =>
         mkWorld false (Some t) (heldCodebaseLocks w) (intervals w)
           (nextTimeout w) (ext w) said
     | None =>
         mkWorld false (Some (nextTimeout w)) (heldCodebaseLocks w)
           (intervals w ++ [(nextTimeout w, (CbAcquireLock, 5000%Z))])
           (S (nextTimeout w)) (ext w)
           (said ++ [CallSetInterval CbAcquireLock 5000 (nextTimeout w)])
     end).
Proof.
  unfold acquireLock_resume, settled. step_through.
  destruct (lockInterval w) eqn:Hi; world_eq; rewrite ?Hi; reflexivity.
Qed.

Lemma releaseLock_resume_released w u :
  releaseLock_resume (Ok u) w =
    (Ok tt,
     mkWorld false (lockInterval w) (heldCodebaseLocks w) (intervals w)
       (nextTimeout w) (ext w)
       (calls w ++ [CallConsoleLog "Released leader lock."])).
Proof. unfold releaseLock_resume, settled. step_through. reflexivity. Qed.

Lemma releaseLock_resume_failed w e :
  releaseLock_resume (Throw e) w =
    (Ok tt, record (CallConsoleError "Error releasing leader lock:" e) w).
Proof. unfold releaseLock_resume, settled. step_through. reflexivity. Qed.

(** A call that nothing overlaps is the call run in one go: starting
    [acquireLock] and going on at once with the answer of its promise is
    [acquireLock]; the same for [releaseLock]. *)
Lemma acquireLock_start_then_resume w :
  acquireLock w =
    match acquireLock_start w with
    | (Ok (Suspended (AwaitLock r)), w1) => acquireLock_resume r w1
    | (Ok (Returned b), w1) => (Ok b, w1)
    | (_, w1) => (Ok false, w1)
    end.
Proof.
  destruct (isLeader w) eqn:Hl.
  - rewrite acquireLock_start_leader by done. by apply acquireLock_leader.
  - rewrite acquireLock_start_follower by done.
    destruct (lockfile_lock LOCK_FILE (ext w)) as [[u|e] x] eqn:Hx; simpl.
    + rewrite acquireLock_resume_granted. simpl.
      erewrite acquireLock_granted by done.
      destruct (lockInterval w); world_eq; reflexivity.
    + rewrite acquireLock_resume_refused. simpl.
      erewrite acquireLock_refused by done.
      destruct (lockInterval w); world_eq; reflexivity.
Qed.

Lemma releaseLock_start_then_resume w :
  releaseLock w =
    match releaseLock_start w with
    | (Ok (Suspended (AwaitUnlock r)), w1) => releaseLock_resume r w1
    | (_, w1) => (Ok tt, w1)
    end.
Proof.
  destruct (isLeader w) eqn:Hl.
  - rewrite releaseLock_start_leader by done.
    destruct (lockfile_unlock LOCK_FILE (ext w)) as [[u|e] x] eqn:Hx; simpl.
    + rewrite releaseLock_resume_released. simpl.
      erewrite releaseLock_released by done. world_eq. reflexivity.
    + rewrite releaseLock_resume_failed. simpl.
      erewrite releaseLock_failed by done. world_eq. by rewrite Hl.
  - rewrite releaseLock_start_follower by done.
    by apply releaseLock_follower.
Qed.

Lemma timer_sound_start_acquire w q :
  timer_sound w → timer_sound (world (park (acquireLock_start w) q)).
Proof.
  intros Hw. destruct (isLeader w) eqn:Hl.
  - by rewrite acquireLock_start_leader.
  - rewrite acquireLock_start_follower by done. simpl.
    destruct Hw as [Hone Hlead]. split; [done|]. simpl. congruence.
Qed.

Lemma timer_sound_start_release w q :
  timer_sound w → timer_sound (world (park (releaseLock_start w) q)).
Proof.
  intros Hw. destruct (isLeader w) eqn:Hl.
  - rewrite releaseLock_start_leader by done. simpl.
    destruct Hw as [Hone Hlead]. split; [done|]. simpl. done.
  - by rewrite releaseLock_start_follower.
Qed.

Lemma timer_sound_resume s w :
  timer_sound w → timer_sound (snd (resume s w)).
Proof.
  intros [Hone Hlead]. unfold one_timer in Hone.
  destruct s as [[u|e]|[u|e]]; unfold resume, bind, ret.
  - rewrite acquireLock_resume_granted. split; [|done].
    unfold one_timer. simpl. destruct (lockInterval w) as [t|]; [|done].
    rewrite Hone. simpl. by rewrite Nat.eqb_refl.
  - rewrite acquireLock_resume_refused. simpl.
    destruct (lockInterval w) as [t|] eqn:Hi; (split; [|done]);
      unfold one_timer; simpl; by rewrite Hone.
  - rewrite releaseLock_resume_released. split; [done|]. done.
  - rewrite releaseLock_resume_failed. split; done.
Qed.

Lemma timer_sound_async_exec o c c' :
  timer_sound (world c) → async_exec o c = Some c' → timer_sound (world c').
Proof.
  intros Hw. destruct o as [| |t|i|x]; simpl.
  - intros [= <-]. by apply timer_sound_start_acquire.
  - intros [= <-]. by apply timer_sound_start_release.
  - destruct (List.find _ _) as [[t' [[] ms]]|]; [|done].
    intros [= <-]. by apply timer_sound_start_acquire.
  - destruct (awaiting c !! i) as [s|]; [|done].
    intros [= <-]. by apply timer_sound_resume.
  - intros [= <-]. done.
Qed.

Lemma async_reachable_timer_sound c :
  async_reachable c → timer_sound (world c).
Proof.
  intros (x & os & Hrun).
  assert (timer_sound (world (init_config x))) as H0 by (split; done).
  revert H0 Hrun. generalize (init_config x).
  induction os as [|o os IH]; intros c0 H0 Hrun.
  - simpl in Hrun. by injection Hrun as <-.
  - simpl in Hrun. destruct (async_exec o c0) as [c1|] eqn:He; [|done].
    eapply (IH c1); [|done]. by eapply timer_sound_async_exec.
Qed.

(** However calls of [acquireLock] and [releaseLock] overlap at their
    [await], and whenever the interval fires in between, Node holds at
    most one interval, it is the one of [lockInterval], and there is
    none while the leader flag is set. *)
Theorem overlapping_calls_keep_one_timer c :
  async_reachable c →
  one_timer (world c) ∧
  (List.length (intervals (world c)) ≤ 1)%nat ∧
  (isLeader (world c) = true →
   lockInterval (world c) = None ∧ intervals (world c) = []).
Proof.
  intros [Hone Hlead]%async_reachable_timer_sound.
  split; [done|]. unfold one_timer in Hone. split.
  - rewrite Hone. destruct (lockInterval (world c)); simpl; lia.
  - intros Hl. split; [by apply Hlead|]. by rewrite Hone, Hlead.
Qed.

(** The leader flag follows the last attempt that settled, not the lock.
    When a suspended call of [acquireLock] whose attempt was refused
    goes on, the leader flag is false afterwards and the retry timer is
    set, even when the process had become leader in between through a
    call that overlapped it; [proper-lockfile] is not called. *)
Theorem late_refusal_clears_leader_flag c i e :
  async_reachable c →
  awaiting c !! i = Some (AwaitLock (Throw e)) →
  ∃ c', async_exec (Settles i) c = Some c' ∧
    isLeader (world c') = false ∧
    (∃ t, lockInterval (world c') = Some t ∧
          intervals (world c') = [(t, (CbAcquireLock, 5000%Z))]) ∧
    ext (world c') = ext (world c) ∧
    heldCodebaseLocks (world c') = heldCodebaseLocks (world c).
Proof.
  intros [Hone _]%async_reachable_timer_sound Hi.
  unfold one_timer in Hone.
  eexists. split; [simpl; by rewrite Hi|]. simpl.
  unfold bind, ret. rewrite acquireLock_resume_refused. simpl.
  destruct (lockInterval (world c)) as [t|] eqn:Ht; simpl.
  - split; [done|]. split; [|done]. exists t. by rewrite Hone.
  - split; [done|]. split; [|done]. eexists. by rewrite Hone.
Qed.

(** *** The retry timer, with calls that overlap *)

Lemma park_acquireLock_start w q :
  isLeader (world (park (acquireLock_start w) q)) = isLeader w ∧
  lockInterval (world (park (acquireLock_start w) q)) = lockInterval w.
Proof.
  destruct (isLeader w) eqn:Hl.
  - by rewrite acquireLock_start_leader.
  - by rewrite acquireLock_start_follower.
Qed.

Lemma park_releaseLock_start w q :
  isLeader (world (park (releaseLock_start w) q)) = isLeader w ∧
  lockInterval (world (park (releaseLock_start w) q)) = lockInterval w.
Proof.
  destruct (isLeader w) eqn:Hl.
  - by rewrite releaseLock_start_leader.
  - by rewrite releaseLock_start_follower.
Qed.

(** One step of a run: the timer is set exactly when the last attempt to
    settle was refused, and never while the leader flag is set. *)
Lemma settled_attempts_step o c c' (h : list bool) :
  (lockInterval (world c) ≠ None ↔ last h = Some false) →
  (isLeader (world c) = true → lockInterval (world c) = None) →
  async_exec o c = Some c' →
  (lockInterval (world c') ≠ None ↔
   last (h ++ option_list (settles_attempt o c)) = Some false) ∧
  (isLeader (world c') = true → lockInterval (world c') = None).
Proof.
  intros Hiff Hlead. destruct o as [| |t|i|x]; simpl.
  - intros [= <-]. rewrite app_nil_r.
    destruct (park_acquireLock_start (world c) (awaiting c)) as [-> ->].
    done.
  - intros [= <-]. rewrite app_nil_r.
    destruct (park_releaseLock_start (world c) (awaiting c)) as [-> ->].
    done.
  - destruct (List.find _ _) as [[t' [[] ms]]|]; [|done].
    intros [= <-]. rewrite app_nil_r.
    destruct (park_acquireLock_start (world c) (awaiting c)) as [-> ->].
    done.
  - destruct (awaiting c !! i) as [[[u|e]|[u|e]]|]; [| | | |done];
      intros [= <-]; cbn [world option_list]; unfold resume, bind, ret.
    + rewrite acquireLock_resume_granted. simpl. rewrite last_snoc.
      split; [|done]. split; done.
    + rewrite acquireLock_resume_refused. simpl. rewrite last_snoc.
      destruct (lockInterval (world c)); simpl; (split; [|done]);
        split; done.
    + simpl. rewrite app_nil_r. split; done.
    + simpl. rewrite app_nil_r. split; done.
  - intros [= <-]. rewrite app_nil_r. done.
Qed.

Lemma settled_attempts_cons o os c c' :
  async_exec o c = Some c' →
  settled_attempts (o :: os) c
  = option_list (settles_attempt o c) ++ settled_attempts os c'.
Proof.
  intros He. simpl. rewrite He. by destruct (settles_attempt o c).
Qed.

Lemma settled_attempts_run os c0 c (h : list bool) :
  (lockInterval (world c0) ≠ None ↔ last h = Some false) →
  (isLeader (world c0) = true → lockInterval (world c0) = None) →
  async_run os c0 = Some c →
  (lockInterval (world c) ≠ None ↔
   last (h ++ settled_attempts os c0) = Some false) ∧
  (isLeader (world c) = true → lockInterval (world c) = None).
Proof.
  revert c0 h. induction os as [|o os IH]; intros c0 h Hiff Hlead Hrun.
  - simpl in Hrun. injection Hrun as <-. simpl. by rewrite app_nil_r.
  - simpl in Hrun. destruct (async_exec o c0) as [c1|] eqn:He; [|done].
    destruct (settled_attempts_step o c0 c1 h Hiff Hlead He) as [Hiff1 Hlead1].
    rewrite (settled_attempts_cons o os c0 c1 He), app_assoc.
    by apply IH.
Qed.

(** C3, as amended.  In every state reached by calls of [acquireLock]
    and [releaseLock], which may overlap at their [await], and by
    firings of the timer, the retry timer handle is set if and only if
    the leader flag is false and the acquisition attempt that settled
    last was refused. *)
Theorem retry_timer_iff_last_settled_attempt_failed x os c :
  async_run os (init_config x) = Some c →
  lockInterval (world c) ≠ None ↔
  isLeader (world c) = false ∧
  last (settled_attempts os (init_config x)) = Some false.
Proof.
  intros Hrun.
  destruct (settled_attempts_run os (init_config x) c [])
    as [Hiff Hlead]; [done|done|done|].
  simpl in Hiff. split.
  - intros Hi. split; [|by apply Hiff].
    destruct (isLeader (world c)); [|done]. by rewrite Hlead in Hi.
  - intros [_ Hf]. by apply Hiff.
Qed.

(** *** The listener of [exit] *)

(** C9 fails on the code at normal exit.  When the process holds
    codebase locks (each stored with a non-empty path), the listener of
    [exit] gives control back at the [unlock] call of one of them: that
    is the only call it makes, every entry is still in the map and the
    leader flag is as it was, so the other locks and the leader lock
    are not released. *)
Theorem exit_listener_stops_at_first_unlock w :
  heldCodebaseLocks w ≠ ∅ →
  (∀ k p, heldCodebaseLocks w !! k = Some p → p ≠ "") →
  ∃ k p res w', heldCodebaseLocks w !! k = Some p ∧
    on_exit w = (Ok (StopAtUnlock p res), w') ∧
    calls w' = calls w ++ [CallUnlock p res] ∧
    isLeader w' = isLeader w ∧
    heldCodebaseLocks w' = heldCodebaseLocks w.
Proof.
  intros Hheld Hne.
  destruct (map_to_list (heldCodebaseLocks w)) as [|[k p] l] eqn:Hl.
  { by apply map_to_list_empty_iff in Hl. }
  assert (heldCodebaseLocks w !! k = Some p) as Hp.
  { apply elem_of_map_to_list. rewrite Hl. apply elem_of_cons. by left. }
  pose proof (is_empty_false p (Hne k p Hp)) as Hpe.
  destruct (lockfile_unlock p (ext w)) as [res x] eqn:Hx.
  exists k, p, res, (record (CallUnlock p res) (set_ext x w)).
  split; [done|]. split; [|done].
  unfold on_exit, keys, unlock_promise. step_through.
  rewrite Hl. simpl. rewrite Hp. simpl. by rewrite Hpe, Hx.
Qed.

End MoreProperties.

(** ** The further properties on the platform of the examples *)

Section FurtherOnSim.

#[local] Existing Instance Sim.platform.

Import Scenario Further.

Lemma reachable_freed : reachable any_op freed.
Proof.
  exists contended, [OpAcquireLock; OpOthers (Sim.free : @Ext Sim.platform)].
  split; vm_compute; reflexivity.
Qed.

Lemma reachable_follower : reachable any_op follower.
Proof. exists contended, [OpAcquireLock]. split; vm_compute; reflexivity. Qed.

Lemma reachable_promoted : reachable any_op promoted.
Proof.
  exists contended,
    [OpAcquireLock; OpOthers (Sim.free : @Ext Sim.platform); OpInterval 0].
  split; vm_compute; reflexivity.
Qed.

Lemma reachable_holding : reachable any_op holding.
Proof.
  exists Sim.free, [OpAcquireCodebaseLock repo].
  split; vm_compute; reflexivity.
Qed.

Lemma async_reachable_racing : async_reachable racing.
Proof.
  exists Sim.free, [StartAcquireLock; StartAcquireLock; Settles 0].
  vm_compute. reflexivity.
Qed.

Lemma acquireLock_granted_clears_timer_witness :
  reachable any_op freed ∧
  isLeader freed = false ∧
  lockInterval freed = Some 0 ∧
  ∃ w', acquireLock freed = (Ok true, w') ∧
        isLeader w' = true ∧ lockInterval w' = None ∧ intervals w' = [].
Proof.
  assert (∃ x, lockfile_lock LOCK_FILE (ext freed) = (Ok tt, x)) as [x Hx]
    by (eexists; vm_compute; reflexivity).
  split; [exact reachable_freed|]. split; [reflexivity|].
  split; [reflexivity|].
  destruct (acquireLock_granted_clears_timer freed tt x
              reachable_freed eq_refl Hx) as (w' & Ha & Hl & Hi & Ht & _).
  exists w'. split; [exact Ha|]. split; [exact Hl|]. split; [exact Hi|].
  exact Ht.
Defined.

Lemma interval_fires_iff_retry_timer_witness :
  reachable any_op follower ∧
  (is_Some (fire 0 follower) ↔ lockInterval follower = Some 0).
Proof.
  split; [exact reachable_follower|].
  exact (interval_fires_iff_retry_timer follower 0 reachable_follower).
Defined.

Lemma leader_has_no_retry_timer_witness :
  reachable any_op promoted ∧
  isLeader promoted = true ∧
  lockInterval promoted = None ∧ intervals promoted = [].
Proof.
  split; [exact reachable_promoted|]. split; [reflexivity|].
  exact (leader_has_no_retry_timer promoted reachable_promoted eq_refl).
Defined.

Lemma releaseLock_schedules_no_retry_witness :
  reachable any_op promoted ∧
  isLeader promoted = true ∧
  ∃ w', releaseLock promoted = (Ok tt, w') ∧
        lockInterval w' = None ∧ intervals w' = [] ∧ ∀ t, fire t w' = None.
Proof.
  split; [exact reachable_promoted|]. split; [reflexivity|].
  exact (releaseLock_schedules_no_retry promoted reachable_promoted eq_refl).
Defined.

Lemma release_then_reacquire_witness :
  heldCodebaseLocks holding !! repo = Some (getCodebaseLockPath repo) ∧
  getCodebaseLockPath repo ≠ "" ∧
  ∃ w1 w2, releaseCodebaseLock repo holding = (Ok tt, w1) ∧
           acquireCodebaseLock repo w1 = (Ok true, w2) ∧
           held_entries repo w2 = [(repo, getCodebaseLockPath repo)].
Proof.
  assert (heldCodebaseLocks holding !! repo = Some (getCodebaseLockPath repo))
    as Hheld by (vm_compute; reflexivity).
  assert (getCodebaseLockPath repo ≠ "") as Hne
    by (vm_compute; discriminate).
  assert (lockfile_unlock (getCodebaseLockPath repo) (ext holding)
          = (Ok tt, Sim.free : @Ext Sim.platform)) as Hu
    by (vm_compute; reflexivity).
  assert (∃ x, lockfile_lock (getCodebaseLockPath repo)
                 (Sim.free : @Ext Sim.platform) = (Ok tt, x)) as [x Hl]
    by (eexists; vm_compute; reflexivity).
  split; [exact Hheld|]. split; [exact Hne|].
  destruct (release_then_reacquire holding repo _ _ _ Hheld Hne Hu Hl)
    as (w1 & w2 & Hr & Ha & He & _).
  exists w1, w2. split; [exact Hr|]. split; [exact Ha|exact He].
Defined.

Lemma aliases_lock_the_same_file_witness :
  reachable any_op holding ∧
  heldCodebaseLocks holding !! repo = Some (getCodebaseLockPath repo) ∧
  path_resolve repo = path_resolve repo_alias ∧
  heldCodebaseLocks holding !! repo_alias = None ∧
  ∃ b w' res msg,
    acquireCodebaseLock repo_alias holding = (Ok b, w') ∧
    calls w' = calls holding ++ [CallLock (getCodebaseLockPath repo) res; msg].
Proof.
  assert (heldCodebaseLocks holding !! repo = Some (getCodebaseLockPath repo))
    as Hheld by (vm_compute; reflexivity).
  assert (path_resolve repo = path_resolve repo_alias) as Hn
    by (vm_compute; reflexivity).
  assert (heldCodebaseLocks holding !! repo_alias = None) as Hnone
    by (vm_compute; reflexivity).
  split; [exact reachable_holding|]. split; [exact Hheld|].
  split; [exact Hn|]. split; [exact Hnone|].
  destruct (aliases_lock_the_same_file holding repo repo_alias _
              reachable_holding Hheld Hn Hnone)
    as (b & w' & res & msg & Ha & Hc & _).
  exists b, w', res, msg. split; [exact Ha|exact Hc].
Defined.

Lemma managers_do_not_interfere_witness :
  ∃ w', exec (OpAcquireCodebaseLock repo) leader = Some w' ∧
        same_leader_slot leader w'.
Proof.
  eexists. split; [reflexivity|].
  exact (proj1 (managers_do_not_interfere (OpAcquireCodebaseLock repo)
                  leader _ eq_refl) (or_introl eq_refl)).
Defined.

Lemma busy_paths_not_empty k p :
  heldCodebaseLocks busy !! k = Some p → p ≠ "".
Proof.
  assert (heldCodebaseLocks busy
          = <["/srv/data" := getCodebaseLockPath "/srv/data"]>
              (<[repo := getCodebaseLockPath repo]> ∅)) as ->
    by (vm_compute; reflexivity).
  intros Hp.
  apply lookup_insert_Some in Hp as [[_ Hp]|[_ Hp]].
  { rewrite <- Hp. vm_compute. discriminate. }
  apply lookup_insert_Some in Hp as [[_ Hp]|[_ Hp]].
  { rewrite <- Hp. vm_compute. discriminate. }
  by rewrite lookup_empty in Hp.
Qed.


Lemma overlapping_calls_keep_one_timer_witness :
  async_reachable racing ∧
  (List.length (intervals (world racing)) ≤ 1)%nat.
Proof.
  split; [exact async_reachable_racing|].
  exact (proj1 (proj2 (overlapping_calls_keep_one_timer racing
                         async_reachable_racing))).
Defined.

Lemma late_refusal_clears_leader_flag_witness :
  async_reachable racing ∧
  isLeader (world racing) = true ∧
  awaiting racing !! 0
    = Some (AwaitLock (Throw "Lock file is already being held")) ∧
  ∃ c', async_exec (Settles 0) racing = Some c' ∧
        isLeader (world c') = false ∧
        ext (world c') = ext (world racing).
Proof.
  split; [exact async_reachable_racing|]. split; [reflexivity|].
  split; [reflexivity|].
  destruct (late_refusal_clears_leader_flag racing 0 _
              async_reachable_racing eq_refl) as (c' & He & Hl & _ & Hx & _).
  exists c'. split; [exact He|]. split; [exact Hl|exact Hx].
Defined.

Lemma retry_timer_iff_last_settled_attempt_failed_witness :
  async_run overtaking (init_config Sim.free) = Some overtaken ∧
  (lockInterval (world overtaken) ≠ None ↔
   isLeader (world overtaken) = false ∧
   last (settled_attempts overtaking (init_config Sim.free)) = Some false).
Proof.
  assert (async_run overtaking (init_config Sim.free) = Some overtaken)
    as Hrun by (vm_compute; reflexivity).
  split; [exact Hrun|].
  exact (retry_timer_iff_last_settled_attempt_failed _ _ _ Hrun).
Defined.

Lemma busy_holds_locks : heldCodebaseLocks busy ≠ ∅.
Proof.
  intros Heq.
  assert (heldCodebaseLocks busy !! repo = Some (getCodebaseLockPath repo))
    as Hrepo by (vm_compute; reflexivity).
  rewrite Heq, lookup_empty in Hrepo. discriminate Hrepo.
Qed.

Lemma exit_listener_stops_at_first_unlock_witness :
  heldCodebaseLocks busy ≠ ∅ ∧
  (∀ k p, heldCodebaseLocks busy !! k = Some p → p ≠ "") ∧
  isLeader busy = true ∧
  ∃ p r w', on_exit busy = (Ok (StopAtUnlock p r), w') ∧
            calls w' = calls busy ++ [CallUnlock p r] ∧
            isLeader w' = true ∧
            heldCodebaseLocks w' = heldCodebaseLocks busy.
Proof.
  split; [exact busy_holds_locks|]. split; [exact busy_paths_not_empty|].
  split; [reflexivity|].
  destruct (exit_listener_stops_at_first_unlock busy busy_holds_locks
              busy_paths_not_empty) as (k & p & r & w' & _ & He & Hc & Hl & Hm).
  exists p, r, w'. split; [exact He|]. split; [exact Hc|].
  split; [exact Hl|exact Hm].
Defined.

End FurtherOnSim.
